(** * ReSpec core: WebIDL identifier resolution, definition linking and
      cross-reference disambiguation

    A shallow embedding of [src/core/webidl.js] (the [IDLNameMap] class,
    [getIdlId], [getDefnName], [getDfnType], [defineIdlName]) and of
    [src/core/xref.js] ([disambiguate], [addDataCiteToTerms]), together
    with the properties of the specification that concern them.

    Conventions of the embedding:
    - JavaScript strings are [string]; the names that reach this code are
      WebIDL identifiers, which are ASCII, so [toLowerCase] maps [A-Z] to
      [a-z] and leaves every other character alone;
    - the counters are JavaScript numbers holding small non-negative
      integers; they are modelled by [N] and printed in decimal;
    - an object literal [{}] used as a map is its own properties (a [gmap])
      in front of [Object.prototype]: a read of a missing own property
      falls through to the prototype;
    - the [WeakMap] keyed by node identity is a [gmap] keyed by a node
      reference;
    - the DOM and the console are an explicit state; a JavaScript exception
      is an explicit outcome. *)

From Stdlib Require Import String Ascii List NArith Bool Lia.
From stdpp Require Import base option list gmap strings pretty.

Open Scope string_scope.

(** ** JavaScript primitives used by the two modules *)

Module JS.

(** Primitive values that the code stores in its counter objects. *)
Inductive prim :=
| PNum (n : N)
| PNaN
| PStr (s : string).

(** What a property read [o[k]] can yield. *)
Inductive value :=
| VUndefined
| VPrim (p : prim)
| VFunction (fname : string)
| VObjectPrototype.

(** The properties every object literal inherits from [Object.prototype]. *)
Definition objectPrototype : list (string * value) :=
  [ ("constructor", VFunction "Object");
    ("__defineGetter__", VFunction "__defineGetter__");
    ("__defineSetter__", VFunction "__defineSetter__");
    ("hasOwnProperty", VFunction "hasOwnProperty");
    ("__lookupGetter__", VFunction "__lookupGetter__");
    ("__lookupSetter__", VFunction "__lookupSetter__");
    ("isPrototypeOf", VFunction "isPrototypeOf");
    ("propertyIsEnumerable", VFunction "propertyIsEnumerable");
    ("toString", VFunction "toString");
    ("valueOf", VFunction "valueOf");
    ("toLocaleString", VFunction "toLocaleString");
    ("__proto__", VObjectPrototype) ].

Fixpoint assoc (k : string) (l : list (string * value)) : option value :=
  match l with
  | [] => None
  | (k', v) :: l' => if String.eqb k k' then Some v else assoc k l'
  end.

Definition inherited (k : string) : option value := assoc k objectPrototype.

(** [o[k]]: own property first, then the prototype, else [undefined]. *)
Definition get (o : gmap string prim) (k : string) : value :=
  match o !! k with
  | Some p => VPrim p
  | None => default VUndefined (inherited k)
  end.

(** [o[k] = p] for a primitive [p].  Writing through the inherited
    [__proto__] accessor with a primitive is ignored; every other write
    creates or overwrites an own property. *)
Definition set (o : gmap string prim) (k : string) (p : prim) : gmap string prim :=
  if String.eqb k "__proto__" && bool_decide (o !! k = None)
  then o
  else <[k := p]> o.

(** [ToBoolean]. *)
Definition truthy (v : value) : bool :=
  match v with
  | VUndefined => false
  | VPrim (PNum n) => negb (N.eqb n 0)
  | VPrim PNaN => false
  | VPrim (PStr s) => negb (String.eqb s "")
  | VFunction _ => true
  | VObjectPrototype => true
  end.

(** Source text that [Function.prototype.toString] gives a built-in. *)
Definition nativeSource (fname : string) : string :=
  "function " +:+ fname +:+ "() { [native code] }".

(** [ToString], as applied by a template literal. *)
Definition toString (v : value) : string :=
  match v with
  | VUndefined => "undefined"
  | VPrim (PNum n) => pretty n
  | VPrim PNaN => "NaN"
  | VPrim (PStr s) => s
  | VFunction f => nativeSource f
  | VObjectPrototype => "[object Object]"
  end.

(** [v + 1]: numeric addition on numbers, concatenation once [ToPrimitive]
    has produced a string. *)
Definition plusOne (v : value) : prim :=
  match v with
  | VUndefined => PNaN
  | VPrim (PNum n) => PNum (n + 1)
  | VPrim PNaN => PNaN
  | VPrim (PStr s) => PStr (s +:+ "1")
  | VFunction f => PStr (nativeSource f +:+ "1")
  | VObjectPrototype => PStr ("[object Object]" +:+ "1")
  end.

(** [if (!o[k]) { o[k] = 0; }] *)
Definition zeroIfFalsy (o : gmap string prim) (k : string) : gmap string prim :=
  if truthy (get o k) then o else set o k (PNum 0).

(** [o[k] += 1;] *)
Definition increment (o : gmap string prim) (k : string) : gmap string prim :=
  set o k (plusOne (get o k)).

Definition lowerChar (c : ascii) : ascii :=
  let n := nat_of_ascii c in
  if (65 <=? n)%nat && (n <=? 90)%nat then ascii_of_nat (n + 32) else c.

(** [s.toLowerCase()] *)
Fixpoint toLowerCase (s : string) : string :=
  match s with
  | EmptyString => EmptyString
  | String c s' => String (lowerChar c) (toLowerCase s')
  end.

(** [s.includes(c)] for a one-character needle. *)
Fixpoint includes (c : ascii) (s : string) : bool :=
  match s with
  | EmptyString => false
  | String c' s' => Ascii.eqb c' c || includes c s'
  end.

(** [s.split(c)] for a one-character separator. *)
Fixpoint split (c : ascii) (s : string) : list string :=
  match s with
  | EmptyString => [""]
  | String c' s' =>
      if Ascii.eqb c' c then "" :: split c s'
      else match split c s' with
           | [] => [String c' ""]
           | p :: ps => String c' p :: ps
           end
  end.

(** [s.split(c, limit)] *)
Definition splitLimit (c : ascii) (limit : nat) (s : string) : list string :=
  take limit (split c s).

(** [strs.join("")] *)
Definition joinEmpty (strs : list string) : string :=
  foldr String.append "" strs.

(** A key that [Object.prototype] does not define: reading it from an
    object literal finds the own property or nothing. *)
Definition plainKey (k : string) : Prop := inherited k = None.

(** The own property at [k] is missing or holds a number ... *)
Definition numericAt (o : gmap string prim) (k : string) : Prop :=
  match o !! k with
  | None | Some (PNum _) => True
  | Some _ => False
  end.

(** ... and then this is the count it stands for. *)
Definition counterAt (o : gmap string prim) (k : string) : N :=
  match o !! k with
  | Some (PNum n) => n
  | _ => 0%N
  end.

End JS.

(** ** core/webidl: the identifier resolver *)

Module WebIDL.

Record argument := { arg_name : string }.

Record extAttr := { ea_name : string }.

(** A definition node as the parser delivers it.  A node without a name
    (a constructor, an anonymous operation) carries the empty name. *)
Record defn := {
  type : string;
  name : string;
  value : string;
  partial : bool;
  arguments : list argument;
  extAttrs : list extAttr
}.

(** The pair [{ name, idlId }] that the resolver hands out. *)
Record NameAndId := { res_name : string; idlId : string }.

(** The instance state of [IDLNameMap]: the [WeakMap] entries, and the two
    counter objects that the constructor sets to [{}]. *)
Record IDLNameMap := {
  entries : gmap nat NameAndId;
  operationNames : gmap string JS.prim;
  idlPartials : gmap string JS.prim
}.

(** [new IDLNameMap()] *)
Definition newIDLNameMap : IDLNameMap :=
  {| entries := ∅; operationNames := ∅; idlPartials := ∅ |}.

Definition getIdlId (name parentName : string) : string :=
  if String.eqb parentName ""
  then "idl-def-" +:+ JS.toLowerCase name
  else "idl-def-" +:+ JS.toLowerCase parentName +:+ "-" +:+ JS.toLowerCase name.

Definition getDefnName (d : defn) : string :=
  if String.eqb (type d) "enum-value" then value d
  else if String.eqb (type d) "operation" then name d
  else if String.eqb (name d) "" then type d else name d.

Definition resolvePartial (m : IDLNameMap) (d : defn) : string * IDLNameMap :=
  if negb (partial d) then ("", m)
  else
    let p1 := JS.zeroIfFalsy (idlPartials m) (name d) in
    let p2 := JS.increment p1 (name d) in
    ("-partial-" +:+ JS.toString (JS.get p2 (name d)),
     {| entries := entries m; operationNames := operationNames m;
        idlPartials := p2 |}).

Definition qualifiedName (parentName name : string) : string :=
  parentName +:+ "." +:+ name.

Definition fullyQualifiedName (parentName name : string) : string :=
  qualifiedName parentName name +:+ "()".

Definition resolveOverload (m : IDLNameMap) (name parentName : string)
  : string * IDLNameMap :=
  let qn := qualifiedName parentName name in
  let fqn := fullyQualifiedName parentName name in
  let o1 := JS.zeroIfFalsy (operationNames m) fqn in
  let '(o2, overload) :=
    if negb (JS.truthy (JS.get o1 qn))
    then (JS.set o1 qn (JS.PNum 0), None)
    else (o1, Some ("!overload-" +:+ JS.toString (JS.get o1 qn))) in
  let o3 := JS.increment o2 fqn in
  let o4 := JS.increment o3 qn in
  (default "" overload,
   {| entries := entries m; operationNames := o4;
      idlPartials := idlPartials m |}).

Definition isContainer (t : string) : bool :=
  String.eqb t "callback interface" || String.eqb t "dictionary"
  || String.eqb t "interface" || String.eqb t "interface mixin".

Definition isCallable (t : string) : bool :=
  String.eqb t "constructor" || String.eqb t "operation".

(** The id segments of the arguments: [-<lowercased argument name>] each. *)
Definition argumentSegments (args : list argument) : string :=
  JS.joinEmpty (map (fun arg => "-" +:+ JS.toLowerCase (arg_name arg)) args).

(** [isContainer] and [isCallable] are the two groups of case labels of
    the [switch]; every other type leaves name and id as they are. *)
Definition resolveNameAndId (m : IDLNameMap) (d : defn) (parent : string)
  : NameAndId * IDLNameMap :=
  let name0 := getDefnName d in
  let id0 := getIdlId name0 parent in
  if isContainer (type d) then
    let '(suffix, m') := resolvePartial m d in
    ({| res_name := name0; idlId := id0 +:+ suffix |}, m')
  else if isCallable (type d) then
    let '(overload, m') := resolveOverload m name0 parent in
    if negb (String.eqb overload "") then
      ({| res_name := name0 +:+ overload; idlId := id0 +:+ overload |}, m')
    else if negb (Nat.eqb (length (arguments d)) 0) then
      ({| res_name := name0;
          idlId := id0 +:+ argumentSegments (arguments d) |}, m')
    else ({| res_name := name0; idlId := id0 |}, m')
  else ({| res_name := name0; idlId := id0 |}, m).

(** [getNameAndId(defn, parent)]; [ref] is the identity of the node object,
    the key of the [WeakMap]. *)
Definition getNameAndId (m : IDLNameMap) (ref : nat) (d : defn) (parent : string)
  : NameAndId * IDLNameMap :=
  match entries m !! ref with
  | Some r => (r, m)
  | None =>
      let '(r, m') := resolveNameAndId m d parent in
      (r, {| entries := <[ref := r]> (entries m');
             operationNames := operationNames m';
             idlPartials := idlPartials m' |})
  end.

(** One document-processing run: the nodes are resolved in order, each
    call carrying the node's reference, its fields and the parent name. *)
Record call := { c_ref : nat; c_defn : defn; c_parent : string }.

Definition resolveCall (m : IDLNameMap) (c : call) : NameAndId * IDLNameMap :=
  getNameAndId m (c_ref c) (c_defn c) (c_parent c).

Fixpoint resolveAll (m : IDLNameMap) (cs : list call)
  : list NameAndId * IDLNameMap :=
  match cs with
  | [] => ([], m)
  | c :: cs' =>
      let '(r, m1) := resolveCall m c in
      let '(rs, m2) := resolveAll m1 cs' in
      (r :: rs, m2)
  end.

(** ** core/webidl: the definition linker *)

(** Shepherd type of a definition kind ([getDfnType]). *)
Definition getDfnType (idlType : string) : string :=
  if String.eqb idlType "operation" then "method"
  else if String.eqb idlType "field" then "dict-member"
  else if String.eqb idlType "callback interface"
          || String.eqb idlType "interface mixin" then "interface"
  else idlType.

(** A [<dfn>] element: one that the registry found (known by its id), or
    the one that [defineIdlName] has just created. *)
Inductive dfnElement :=
| ExistingDfn (id : string)
| CreatedDfn.

(** The calls that [defineIdlName] makes on its collaborators, in order. *)
Inductive effect :=
| MarkExported (dfn : dfnElement) (dfnType : string)
| DecorateDfn (dfn : dfnElement) (data : defn) (parentName name : string)
| AddAlternativeNamesByType (dfn : dfnElement) (idlType parentName name : string)
| RegisterDefinition (dfn : dfnElement) (names : list string)
| ShowInlineWarning (msg : string).

(** The node that [defineIdlName] returns. *)
Inductive rendered :=
| InternalLink (linkFor linkType href escaped : string)
| DefaultToJSONLink (escaped : string)
| NewDfn (dfnType escaped : string)
| UnlinkedAnchor (dataIdl : option string) (linkType title escaped : string).

Definition isShowInlineWarning (e : effect) : bool :=
  match e with ShowInlineWarning _ => true | _ => false end.

Definition isRegisterDefinition (e : effect) : bool :=
  match e with RegisterDefinition _ _ => true | _ => false end.

Definition isUnlinkedAnchor (r : rendered) : bool :=
  match r with UnlinkedAnchor _ _ _ _ => true | _ => false end.

(** The implicit default serializer: an operation named [toJSON] that
    carries the [Default] extended attribute. *)
Definition isDefaultJSON (data : defn) : bool :=
  String.eqb (type data) "operation" && String.eqb (name data) "toJSON"
  && existsb (fun a => String.eqb (ea_name a) "Default") (extAttrs data).

(** [parent ? parent.name : ""] *)
Definition parentNameOf (parent : option defn) : string :=
  match parent with Some p => name p | None => "" end.

(** [!dfn] *)
Definition notFound (dfn : option string) : bool :=
  match dfn with Some _ => false | None => true end.

(** [findDfn] is the registry's answer for [(data, name, { parent })]:
    the id of an existing [<dfn>], or nothing.  [parent] is the parent
    node, when there is one. *)
Definition defineIdlName
    (findDfn : defn -> string -> string -> option string)
    (m : IDLNameMap) (escaped : string) (ref : nat) (data : defn)
    (parent : option defn)
  : rendered * list effect * IDLNameMap :=
  let parentName := parentNameOf parent in
  let '(r, m') := getNameAndId m ref data parentName in
  let name := res_name r in
  let dfn := findDfn data name parentName in
  let linkType := getDfnType (type data) in
  match dfn with
  | Some id =>
      let exported :=
        if negb (partial data) then [MarkExported (ExistingDfn id) linkType]
        else [] in
      (InternalLink parentName linkType ("#" +:+ id) escaped,
       (exported ++
        [ DecorateDfn (ExistingDfn id) data parentName name;
          AddAlternativeNamesByType (ExistingDfn id) (type data) parentName name ])%list,
       m')
  | None =>
      if isDefaultJSON data then (DefaultToJSONLink escaped, [], m')
      else if negb (partial data) then
        (NewDfn linkType escaped,
         [ RegisterDefinition CreatedDfn [name];
           DecorateDfn CreatedDfn data parentName name;
           AddAlternativeNamesByType CreatedDfn (type data) parentName name ],
         m')
      else
        let unlinkedAnchor :=
          UnlinkedAnchor (if partial data then Some "partial" else None)
            linkType (WebIDL.name data) escaped in
        let showWarnings :=
          negb (String.eqb name "")
          && negb (String.eqb (type data) "typedef")
          && negb (partial data && notFound dfn) in
        if showWarnings then
          let styledName :=
            if String.eqb (type data) "operation" then name +:+ "()" else name in
          let ofParent :=
            if negb (String.eqb parentName "")
            then " `" +:+ parentName +:+ "`'s" else "" in
          let msg :=
            "Missing `<dfn>` for" +:+ ofParent +:+ " `" +:+ styledName +:+ "` "
            +:+ type data
            +:+ ". [More info](https://github.com/w3c/respec/wiki/WebIDL-thing-is-not-defined)." in
          (unlinkedAnchor, [ShowInlineWarning msg], m')
        else (unlinkedAnchor, [], m')
  end.

(** The call resolves an operation or constructor whose qualified name
    [parent.name] is [q]. *)
Definition resolvesQualified (q : string) (c : call) : bool :=
  isCallable (type (c_defn c))
  && String.eqb (qualifiedName (c_parent c) (getDefnName (c_defn c))) q.

(** The call resolves an operation or constructor whose call form
    [parent.name()] is [q]. *)
Definition resolvesCallForm (q : string) (c : call) : bool :=
  isCallable (type (c_defn c))
  && String.eqb (fullyQualifiedName (c_parent c) (getDefnName (c_defn c))) q.

(** The call resolves a partial container whose name is [n]. *)
Definition resolvesPartial (n : string) (c : call) : bool :=
  isContainer (type (c_defn c)) && partial (c_defn c)
  && String.eqb (name (c_defn c)) n.

(** How many of the first [i] calls satisfy [f]. *)
Definition countPrior (f : call -> bool) (i : nat) (cs : list call) : N :=
  N.of_nat (length (List.filter f (take i cs))).

(** The identity of an operation or constructor that [k] earlier
    resolutions of the same qualified name precede: the plain name, with
    the argument segments on the id, for the first; [!overload-<k>] on both
    for the later ones. *)
Definition resolvedCallable (d : defn) (parent : string) (k : N) : NameAndId :=
  let n := getDefnName d in
  let id := getIdlId n parent in
  if N.eqb k 0
  then {| res_name := n; idlId := id +:+ argumentSegments (arguments d) |}
  else {| res_name := n +:+ "!overload-" +:+ pretty k;
          idlId := id +:+ "!overload-" +:+ pretty k |}.

(** The identity of the [k]-th partial container of a name. *)
Definition resolvedPartial (d : defn) (parent : string) (k : N) : NameAndId :=
  let n := getDefnName d in
  {| res_name := n; idlId := getIdlId n parent +:+ "-partial-" +:+ pretty k |}.

(** The missing-definition rule in the specification's words: a node
    without a definition in the registry, with a non-empty resolved name,
    of a type other than [typedef], that is not a partial definition
    lacking a prior definition and not the default [toJSON], gets exactly
    one warning and is rendered as an unlinked reference. *)
Definition missingDfnRuleAsWorded
    (findDfn : defn -> string -> string -> option string)
    (m : IDLNameMap) (escaped : string) (ref : nat) (data : defn)
    (parent : option defn) : Prop :=
  let resolved := (getNameAndId m ref data (parentNameOf parent)).1 in
  let found := findDfn data (res_name resolved) (parentNameOf parent) in
  let out := defineIdlName findDfn m escaped ref data parent in
  found = None ->
  res_name resolved <> "" ->
  type data <> "typedef" ->
  ~ (partial data = true /\ found = None) ->
  isDefaultJSON data = false ->
  length (List.filter isShowInlineWarning out.1.2) = 1%nat
  /\ isUnlinkedAnchor out.1.1 = true.

(** A registry that knows no definition, and [interface Baz {};]. *)
Definition emptyRegistry : defn -> string -> string -> option string :=
  fun _ _ _ => None.

Definition interfaceBaz : defn :=
  {| type := "interface"; name := "Baz"; value := ""; partial := false;
     arguments := []; extAttrs := [] |}.

(** [partial interface Baz {};] *)
Definition partialInterfaceBaz : defn :=
  {| type := "interface"; name := "Baz"; value := ""; partial := true;
     arguments := []; extAttrs := [] |}.

(** The identity with nothing appended to the name or to the id. *)
Definition bareIdentity (d : defn) (parent : string) : NameAndId :=
  {| res_name := getDefnName d; idlId := getIdlId (getDefnName d) parent |}.


(** The overload rule in the specification's words, for the run [cs]: the
    first resolution of a qualified name adds nothing to name or id, the
    one after [k >= 1] earlier ones appends [!overload-<k>] to both. *)
Definition overloadRuleAsWorded (cs : list call) : Prop :=
  forall q i c r,
    cs !! i = Some c ->
    resolvesQualified q c = true ->
    (resolveAll newIDLNameMap cs).1 !! i = Some r ->
    r = (let k := countPrior (resolvesQualified q) i cs in
         if N.eqb k 0 then bareIdentity (c_defn c) (c_parent c)
         else {| res_name := getDefnName (c_defn c) +:+ "!overload-" +:+ pretty k;
                 idlId := getIdlId (getDefnName (c_defn c)) (c_parent c)
                          +:+ "!overload-" +:+ pretty k |}).

(** Node constructors and runs for the examples. *)
Definition mkOperation (n : string) (args : list string) : defn :=
  {| type := "operation"; name := n; value := ""; partial := false;
     arguments := map (fun a => {| arg_name := a |}) args; extAttrs := [] |}.

Definition mkContainer (t n : string) (isPartial : bool) : defn :=
  {| type := t; name := n; value := ""; partial := isPartial;
     arguments := []; extAttrs := [] |}.

Definition mkCall (ref : nat) (d : defn) (parent : string) : call :=
  {| c_ref := ref; c_defn := d; c_parent := parent |}.

(** [interface P { void foo(); void foo(); void foo(); };] *)
Definition threeFoo : list call :=
  [ mkCall 1 (mkOperation "foo" []) "P";
    mkCall 2 (mkOperation "foo" []) "P";
    mkCall 3 (mkOperation "foo" []) "P" ].

(** [partial dictionary Bar {}; partial dictionary Bar {};] *)
Definition twoPartialBar : list call :=
  [ mkCall 1 (mkContainer "dictionary" "Bar" true) "";
    mkCall 2 (mkContainer "dictionary" "Bar" true) "" ].

(** [interface Foo {}; dictionary foo {};] *)
Definition fooAndFoo : list call :=
  [ mkCall 1 (mkContainer "interface" "Foo" false) "";
    mkCall 2 (mkContainer "dictionary" "foo" false) "" ].

(** [interface Foo { void bar(long x); };], the member alone. *)
Definition barWithArgument : list call :=
  [ mkCall 1 (mkOperation "bar" ["x"]) "Foo" ].

(** [partial dictionary valueOf {};] *)
Definition partialValueOf : list call :=
  [ mkCall 1 (mkContainer "dictionary" "valueOf" true) "" ].

End WebIDL.

(** ** core/xref: disambiguation and annotation of term occurrences *)

Module Xref.

(** A candidate match returned by the lookup for a term. *)
Record candidate := {
  uri : string;
  spec : string;
  ctype : string;
  normative : bool
}.

(** What the code reads and writes on an element: its class list, its
    [dataset], and whether it has an ancestor matching [.informative]. *)
Record element := {
  classList : list string;
  dataset : gmap string string;
  inInformative : bool
}.

Global Instance element_inhabited : Inhabited element :=
  populate {| classList := []; dataset := ∅; inInformative := false |}.

(** An occurrence of a term: [{ elem, specs, types }], the element given by
    its reference into the document. *)
Record entry := { elem : nat; specs : list string; types : list string }.

(** A [console.warn] call: the message and the element it is about. *)
Record logLine := { log_message : string; log_elem : nat }.

(** The mutable surroundings: the document's elements, the two reference
    sets of [conf], and the console. *)
Record state := {
  dom : gmap nat element;
  normativeReferences : gset string;
  informativeReferences : gset string;
  console : list logLine
}.

(** How a call ends: it returns, or an exception propagates out of it. *)
Inductive outcome :=
| Completed (s : state)
| Threw (error : string) (s : state).

Definition stateOf (o : outcome) : state :=
  match o with Completed s => s | Threw _ s => s end.

Definition completes (o : outcome) : bool :=
  match o with Completed _ => true | Threw _ _ => false end.

(** [elem.classList.add(c)] *)
Definition classListAdd (c : string) (e : element) : element :=
  {| classList := if existsb (String.eqb c) (classList e)
                  then classList e else (classList e ++ [c])%list;
     dataset := dataset e;
     inInformative := inInformative e |}.

Definition updateElem (r : nat) (f : element -> element) (s : state) : state :=
  {| dom := <[r := f (dom s !!! r)]> (dom s);
     normativeReferences := normativeReferences s;
     informativeReferences := informativeReferences s;
     console := console s |}.

Definition consoleWarn (msg : string) (r : nat) (s : state) : state :=
  {| dom := dom s;
     normativeReferences := normativeReferences s;
     informativeReferences := informativeReferences s;
     console := (console s ++ [{| log_message := msg; log_elem := r |}])%list |}.

Definition offending : string := "respec-offending-element".

(** [disambiguate(data, context)]; [data] is [None] for a missing value. *)
Definition disambiguate (data : option (list candidate)) (context : entry)
    (s : state) : option candidate * state :=
  match data with
  | None => (None, s)
  | Some [] => (None, s)
  | Some [c] =>
      if negb (Nat.eqb (length (specs context)) 0)
         && negb (existsb (String.eqb (spec c)) (specs context))
      then
        (None,
         consoleWarn "No data for " (elem context)
           (updateElem (elem context) (classListAdd offending) s))
      else (Some c, s)
  | Some _ =>
      (None,
       updateElem (elem context) (classListAdd offending)
         (consoleWarn "Ambiguity in data for" (elem context) s))
  end.

(** A value stored into a [dataset] is converted to a string. *)
Definition domString (v : option string) : string := default "undefined" v.

(** [Object.assign(elem.dataset, { cite, citePath, citeFrag })] *)
Definition assignCite (cite : string) (citePath citeFrag : option string)
    (e : element) : element :=
  {| classList := classList e;
     dataset := <["citeFrag" := domString citeFrag]>
                  (<["citePath" := domString citePath]>
                     (<["cite" := cite]> (dataset e)));
     inInformative := inInformative e |}.

Definition addNormative (cite : string) (s : state) : state :=
  {| dom := dom s;
     normativeReferences := {[cite]} ∪ normativeReferences s;
     informativeReferences := informativeReferences s;
     console := console s |}.

Definition addInformative (cite : string) (s : state) : state :=
  {| dom := dom s;
     normativeReferences := normativeReferences s;
     informativeReferences := {[cite]} ∪ informativeReferences s;
     console := console s |}.

(** The callback that [addDataCiteToTerms] runs on one entry of a term. *)
Definition annotateEntry (data : option (list candidate)) (e : entry)
    (s : state) : outcome :=
  let '(result, s1) := disambiguate data e s in
  match result with
  | None => Completed s1
  | Some r =>
      let cite := spec r in
      let s2 :=
        if normative r then addNormative cite s1
        else if inInformative (dom s1 !!! elem e) then addInformative cite s1
        else consoleWarn "Adding informative reference to normative section"
               (elem e) s1 in
      let path :=
        if JS.includes "/" (uri r)
        then JS.splitLimit "/" 1 (uri r) !! 1%nat
        else Some (uri r) in
      match path with
      | None => Threw "TypeError: Cannot read properties of undefined (reading 'split')" s2
      | Some p =>
          let parts := JS.split "#" p in
          Completed
            (updateElem (elem e)
               (assignCite cite (parts !! 0%nat) (parts !! 1%nat)) s2)
      end
  end.

(** [entries.forEach(callback)]: an exception ends the loop. *)
Fixpoint forEachEntry (data : option (list candidate)) (es : list entry)
    (s : state) : outcome :=
  match es with
  | [] => Completed s
  | e :: es' =>
      match annotateEntry data e s with
      | Completed s' => forEachEntry data es' s'
      | Threw err s' => Threw err s'
      end
  end.

(** [addDataCiteToTerms(results, conf)]: [results] lists the properties of
    the lookup response in enumeration order, [xrefs] is [conf.xrefs]. *)
Fixpoint addDataCiteToTerms (results : list (string * option (list candidate)))
    (xrefs : gmap string (list entry)) (s : state) : outcome :=
  match results with
  | [] => Completed s
  | (term, data) :: rest =>
      match xrefs !! term with
      | None => Threw "TypeError: Cannot read properties of undefined (reading 'forEach')" s
      | Some es =>
          match forEachEntry data es s with
          | Completed s' => addDataCiteToTerms rest xrefs s'
          | Threw err s' => Threw err s'
          end
      end
  end.

(** The path and fragment that the specification describes: the part of
    the uri after its first [/] (all of it when there is none), cut at [#]. *)
Fixpoint afterFirst (c : ascii) (s : string) : string :=
  match s with
  | EmptyString => EmptyString
  | String c' s' => if Ascii.eqb c' c then s' else afterFirst c s'
  end.

Definition specPath (u : string) : string :=
  if JS.includes "/" u then afterFirst "/" u else u.

(** A document with one element, an occurrence of a term on it, and
    candidates for it. *)
Definition plainElement : element :=
  {| classList := []; dataset := ∅; inInformative := false |}.

Definition oneElement : state :=
  {| dom := {[ 1%nat := plainElement ]};
     normativeReferences := ∅;
     informativeReferences := ∅;
     console := [] |}.

Definition occurrence (citing : list string) : entry :=
  {| elem := 1; specs := citing; types := [] |}.

Definition domEvent : candidate :=
  {| uri := "dom/#concept-event"; spec := "dom"; ctype := "dfn";
     normative := true |}.

Definition htmlEvent : candidate :=
  {| uri := "webappapis.html#event"; spec := "html"; ctype := "dfn";
     normative := true |}.

End Xref.

(** ** core/webidl: render rules and citation defaulting *)

Module Markup.
Import WebIDL.

Definition upperChar (c : ascii) : ascii :=
  let n := nat_of_ascii c in
  if (97 <=? n)%nat && (n <=? 122)%nat then ascii_of_nat (n - 32) else c.

(** [getIdlDefinitionClassName(defn)]; [None] stands for the [TypeError]
    of [defn.type[0].toUpperCase()] on an empty type. *)
Definition getIdlDefinitionClassName (d : defn) : option string :=
  if String.eqb (type d) "callback interface" then Some "idlInterface"
  else if String.eqb (type d) "operation" then Some "idlMethod"
  else if String.eqb (type d) "field" then Some "idlMember"
  else if String.eqb (type d) "enum-value" then Some "idlEnumItem"
  else if String.eqb (type d) "callback function" then Some "idlCallback"
  else match type d with
       | EmptyString => None
       | String c rest => Some ("idl" +:+ String (upperChar c) rest)
       end.

(** The [<span>] that the [definition] render rule wraps a definition
    in: with only a class, or with class, id and [data-title]. *)
Inductive definitionSpan :=
| ClassSpan (className : string)
| TitledSpan (className id title : string).

(** The [definition] render rule of [makeMarkup]; the wrapped contents
    play no part and are left out.  [None] is the exception of
    [getIdlDefinitionClassName]. *)
Definition definition (m : IDLNameMap) (ref : nat) (data : defn)
    (parent : option defn) : option (definitionSpan * IDLNameMap) :=
  match getIdlDefinitionClassName data with
  | None => None
  | Some className =>
      if String.eqb (type data) "includes" || String.eqb (type data) "enum-value"
      then Some (ClassSpan className, m)
      else
        let parentName := parentNameOf parent in
        let '(r, m') := getNameAndId m ref data parentName in
        Some (TitledSpan className (idlId r) (res_name r), m')
  end.

(** [s.includes(needle)] *)
Fixpoint includesString (needle s : string) : bool :=
  String.prefix needle s
  || match s with
     | EmptyString => false
     | String _ s' => includesString needle s'
     end.

(** The writer's context of a reference: the enclosing node's [type] and
    [name]. *)
Record context := { ctx_type : string; ctx_name : string }.

(** The attributes of the [<a>] that the [reference] render rule makes;
    [None] is the [null] or [undefined] the template was given. *)
Record referenceLink := {
  xrefType : string;
  dataCite : option string;
  dataLt : option string
}.

Definition inExposed (c : context) : bool :=
  String.eqb (ctx_type c) "extended-attribute" && String.eqb (ctx_name c) "Exposed".

(** The [reference] render rule of [makeMarkup]. *)
Definition reference (unescaped : string) (c : context) : referenceLink :=
  if String.eqb unescaped "Window" then
    {| xrefType := "interface"; dataCite := Some "HTML"; dataLt := None |}
  else if String.eqb unescaped "object" then
    {| xrefType := "interface"; dataCite := Some "WebIDL"; dataLt := None |}
  else if includesString "Worker" unescaped && inExposed c then
    {| xrefType := "interface";
       dataCite :=
         if existsb (String.eqb unescaped)
              ["Worker"; "DedicatedWorker"; "SharedWorker"]
         then Some "HTML" else None;
       dataLt := Some (unescaped +:+ "GlobalScope") |}
  else {| xrefType := "_IDL_"; dataCite := None; dataLt := None |}.

(** The character classes of the regular expressions: [\w] and, for the
    ASCII range, [\s]. *)
Definition isWordChar (c : ascii) : bool :=
  let n := nat_of_ascii c in
  ((48 <=? n)%nat && (n <=? 57)%nat) || ((65 <=? n)%nat && (n <=? 90)%nat)
  || ((97 <=? n)%nat && (n <=? 122)%nat) || (n =? 95)%nat.

Definition isSpace (c : ascii) : bool :=
  let n := nat_of_ascii c in
  ((9 <=? n)%nat && (n <=? 13)%nat) || (n =? 32)%nat.

(** [webidl\b], ignoring case, at the start of [s]. *)
Definition webidlHere (s : string) : bool :=
  String.prefix "webidl" (JS.toLowerCase s)
  && match String.substring 6 1 s with
     | String c _ => negb (isWordChar c)
     | EmptyString => true
     end.

(** [/\bwebidl\b/i.test(s)], scanning from a position whose preceding
    character is a word character or not. *)
Fixpoint testWebidlFrom (afterWord : bool) (s : string) : bool :=
  (negb afterWord && webidlHere s)
  || match s with
     | EmptyString => false
     | String c s' => testWebidlFrom (isWordChar c) s'
     end.

Definition testWebidl (s : string) : bool := testWebidlFrom false s.

Fixpoint trimStart (s : string) : string :=
  match s with
  | String c s' => if isSpace c then trimStart s' else s
  | EmptyString => EmptyString
  end.

(** Drops the white space at the end of [s]. *)
Fixpoint trimEnd (s : string) : string :=
  match s with
  | EmptyString => EmptyString
  | String c s' =>
      match trimEnd s' with
      | EmptyString => if isSpace c then EmptyString else String c EmptyString
      | t => String c t
      end
  end.

(** [s.trim()] *)
Definition trim (s : string) : string := trimEnd (trimStart s).

(** [s.split(/\s+/)]; [inRun] says that the character before was white
    space of the separator being skipped. *)
Fixpoint splitSpacesFrom (inRun : bool) (s : string) : list string :=
  match s with
  | EmptyString => [""]
  | String c s' =>
      if isSpace c then
        if inRun then splitSpacesFrom true s'
        else "" :: splitSpacesFrom true s'
      else match splitSpacesFrom false s' with
           | [] => [String c ""]
           | p :: ps => String c p :: ps
           end
  end.

Definition splitSpaces (s : string) : list string := splitSpacesFrom false s.

(** [strs.join(" ")] *)
Fixpoint joinSpace (strs : list string) : string :=
  match strs with
  | [] => ""
  | [s] => s
  | s :: rest => s +:+ " " +:+ joinSpace rest
  end.

(** The citation defaulting at the end of [renderWebIDL]: from the
    [dataset.cite] of the closest [[data-cite], body] ([None] when the
    attribute is absent) to the value it has afterwards. *)
Definition normalizeCite (cite : option string) : string :=
  let c := match cite with
           | None => "WebIDL"
           | Some c => if String.eqb c "" then "WebIDL" else c
           end in
  if negb (testWebidl c)
  then joinSpace ("WebIDL" :: splitSpaces (trim c))
  else c.

End Markup.

(** ** core/xref: collecting the occurrences and building the query *)

Module XrefQuery.
Import Xref.

(** What [getRefMap] reads of a possible external link: the element,
    [dataset.xref] when the element has a [data-xref] attribute, its text,
    and the [dataset.cite] of the closest element with [data-cite]. *)
Record site := {
  site_elem : nat;
  site_xref : option string;
  site_text : string;
  site_cite : option string
}.

(** A [Map] with string keys, in insertion order. *)
Fixpoint mapGet {A} (k : string) (m : list (string * A)) : option A :=
  match m with
  | [] => None
  | (k', v) :: m' => if String.eqb k k' then Some v else mapGet k m'
  end.

(** [m.set(k, v)]: a known key keeps its place. *)
Fixpoint mapSet {A} (k : string) (v : A) (m : list (string * A))
  : list (string * A) :=
  match m with
  | [] => [(k, v)]
  | (k', v') :: m' =>
      if String.eqb k k' then (k, v) :: m' else (k', v') :: mapSet k v m'
  end.

Section WithNorm.

(** [norm] of [core/utils], which is not part of these files. *)
Variable norm : string -> string.

Definition siteTerm (e : site) : string :=
  norm (match site_xref e with Some x => x | None => site_text e end).

Definition siteEntry (e : site) : entry :=
  {| elem := site_elem e;
     specs := match site_cite e with
              | Some c => JS.split " " c
              | None => []
              end;
     types := [] |}.

(** The callback of the [reduce] in [getRefMap]. *)
Definition addSite (xrefs : list (string * list entry)) (e : site)
  : list (string * list entry) :=
  let term := siteTerm e in
  let xrefsForTerm := default [] (mapGet term xrefs) in
  mapSet term (xrefsForTerm ++ [siteEntry e])%list xrefs.

Definition getRefMap (elems : list site) : list (string * list entry) :=
  fold_left addSite elems [].

End WithNorm.

(** An entry of the query: [{ term, specs, types }]. *)
Record queryKey := {
  k_term : string;
  k_specs : list string;
  k_types : list string
}.

(** [createXrefQuery(xrefs).keys] *)
Definition createXrefQuery (xrefs : list (string * list entry)) : list queryKey :=
  flat_map
    (fun '(term, refs) =>
       map (fun r => {| k_term := term; k_specs := specs r; k_types := types r |})
         refs)
    xrefs.


(** *** The simulated lookup *)

(** A property of the [result] object of [simulateShepherd]: the array of
    items it collects for a term, or, for a term that is the name of a
    property of [Object.prototype], the inherited object that
    [result[term] || []] found. *)
Inductive resultValue :=
| Items (l : list candidate)
| Inherited.

(** [filterFn(item, { specs, types })] *)
Definition filterFn (item : candidate) (key : queryKey) : bool :=
  let valid :=
    if negb (Nat.eqb (length (k_specs key)) 0)
    then existsb (String.eqb (spec item)) (k_specs key)
    else true in
  if negb (Nat.eqb (length (k_types key)) 0)
  then valid && existsb (String.eqb (ctype item)) (k_types key)
  else valid.

(** [result[term] = result[term] || [];] on the own properties of
    [result] in insertion order.  An inherited value is truthy and is
    stored as an own property, except through the [__proto__] accessor,
    which stores nothing. *)
Definition ensureResult (result : list (string * resultValue)) (term : string)
  : list (string * resultValue) :=
  match mapGet term result with
  | Some v => mapSet term v result
  | None =>
      match JS.inherited term with
      | Some _ =>
          if String.eqb term "__proto__" then result
          else mapSet term Inherited result
      | None => mapSet term (Items []) result
      end
  end.

(** The body of the inner loop for one item; [None] is the [TypeError]
    of calling [find] on a value that has none. *)
Definition offerItem (key : queryKey) (term : string)
    (result : list (string * resultValue)) (item : candidate)
  : option (list (string * resultValue)) :=
  if filterFn item key then
    match mapGet term result with
    | Some (Items l) =>
        if existsb (fun t => String.eqb (uri t) (uri item)) l
        then Some result
        else Some (mapSet term (Items (l ++ [item])%list) result)
    | Some Inherited => None
    | None => None
    end
  else Some result.

Fixpoint offerItems (key : queryKey) (term : string) (items : list candidate)
    (result : list (string * resultValue))
  : option (list (string * resultValue)) :=
  match items with
  | [] => Some result
  | item :: rest =>
      match offerItem key term result item with
      | Some result' => offerItems key term rest result'
      | None => None
      end
  end.

(** The body of the outer loop for one key of the query; [data] holds the
    own properties of the fetched object, and [None] is a [TypeError]
    (here, of iterating an inherited value of [data]). *)
Definition lookupKey (data : gmap string (list candidate))
    (result : list (string * resultValue)) (key : queryKey)
  : option (list (string * resultValue)) :=
  let term := k_term key in
  let result1 := ensureResult result term in
  if bool_decide (is_Some (data !! term)) || bool_decide (is_Some (JS.inherited term))
  then match data !! term with
       | Some items => offerItems key term items result1
       | None => None
       end
  else Some result1.

Fixpoint simulateFrom (data : gmap string (list candidate))
    (keys : list queryKey) (result : list (string * resultValue))
  : option (list (string * resultValue)) :=
  match keys with
  | [] => Some result
  | key :: rest =>
      match lookupKey data result key with
      | Some result' => simulateFrom data rest result'
      | None => None
      end
  end.

(** [simulateShepherd(query)] on the fetched [data]. *)
Definition simulateShepherd (data : gmap string (list candidate))
    (keys : list queryKey) : option (list (string * resultValue)) :=
  simulateFrom data keys [].

(** What holds of the arrays of a [result] for the keys in [seen]: no uri
    twice, and every item taken from the data of its term through the
    filter of a key of that term. *)
Definition collected (data : gmap string (list candidate))
    (seen : queryKey -> Prop) (result : list (string * resultValue)) : Prop :=
  forall t l,
    mapGet t result = Some (Items l) ->
    NoDup (uri <$> l)
    /\ forall c, c ∈ l ->
         (exists items, data !! t = Some items /\ c ∈ items)
         /\ exists key, seen key /\ k_term key = t /\ filterFn c key = true.


(** Whether the guard of [disambiguate] lets a single candidate through
    for an entry. *)
Definition acceptsSpec (c : candidate) (e : entry) : bool :=
  Nat.eqb (length (specs e)) 0 || existsb (String.eqb (spec c)) (specs e).

(** From [s] to [s'] references, console lines and classes were only
    added. *)
Definition onlyAdds (s s' : state) : Prop :=
  normativeReferences s ⊆ normativeReferences s'
  /\ informativeReferences s ⊆ informativeReferences s'
  /\ console s `prefix_of` console s'
  /\ forall r, classList (dom s !!! r) ⊆ classList (dom s' !!! r).

(** Two occurrences of [widget], citing [A] and citing [B]. *)
Definition widgetSites : list site :=
  [ {| site_elem := 1; site_xref := None; site_text := "widget";
       site_cite := Some "A" |};
    {| site_elem := 2; site_xref := None; site_text := "widget";
       site_cite := Some "B" |} ].

End XrefQuery.


(** ** Names and the anchor ids built from them *)

Module Naming.
Import WebIDL.








(** The id before anything is appended:
    [idl-def-[<lowercased parent>-]<lowercased name>]. *)
Definition bareId (c : call) : string :=
  getIdlId (getDefnName (c_defn c)) (c_parent c).


Definition mkMember (t n : string) : defn :=
  {| type := t; name := n; value := ""; partial := false;
     arguments := []; extAttrs := [] |}.



(** [interface a-b { attribute long c; }; interface a { attribute long b-c; };],
    the two members. *)
Definition hyphenatedMembers : list call :=
  [ mkCall 1 (mkMember "attribute" "c") "a-b";
    mkCall 2 (mkMember "attribute" "b-c") "a" ].

(** [interface Foo { void bar(long x); attribute long bar-x; };], the two
    members. *)
Definition argumentAndHyphen : list call :=
  [ mkCall 1 (mkOperation "bar" ["x"]) "Foo";
    mkCall 2 (mkMember "attribute" "bar-x") "Foo" ].

(** [interface P { void foo(); void Foo(); };], the two members. *)
Definition fooAndFooOperations : list call :=
  [ mkCall 1 (mkOperation "foo" []) "P";
    mkCall 2 (mkOperation "Foo" []) "P" ].

End Naming.

(** * Properties *)

(** ** Counter objects *)

Module JSFacts.
Import JS.

Lemma assoc_Some_In k v l : assoc k l = Some v -> In k (map fst l).
Proof.
  induction l as [|[k' v'] l IH]; simpl; [discriminate|].
  destruct (String.eqb_spec k k') as [->|_]; [now left | intros H; right; auto].
Qed.

(** No inherited property name contains a dot. *)
Lemma includes_dot_plain k : includes "." k = true -> plainKey k.
Proof.
  intros Hdot. unfold plainKey, inherited.
  destruct (assoc k objectPrototype) as [v|] eqn:E; [|reflexivity].
  apply assoc_Some_In in E. simpl in E.
  repeat (destruct E as [<-|E]; [vm_compute in Hdot; discriminate|]).
  destruct E.
Qed.

Lemma includes_app_r c s1 s2 : includes c s2 = true -> includes c (s1 +:+ s2) = true.
Proof.
  intros H. induction s1 as [|a s1 IH]; simpl; [exact H|].
  rewrite IH. apply orb_true_r.
Qed.

Lemma plain_not_proto k : plainKey k -> k <> "__proto__".
Proof. intros H ->. vm_compute in H. discriminate. Qed.

Lemma get_plain o k :
  plainKey k ->
  get o k = match o !! k with Some p => VPrim p | None => VUndefined end.
Proof. unfold get, plainKey. intros ->. reflexivity. Qed.

Lemma set_lookup_ne o k k' p : k <> k' -> set o k p !! k' = o !! k'.
Proof.
  intros Hne. unfold set.
  destruct (_ && _); [reflexivity|]. by rewrite lookup_insert_ne.
Qed.

Lemma set_lookup_eq o k p : k <> "__proto__" -> set o k p !! k = Some p.
Proof.
  intros Hne. unfold set.
  destruct (String.eqb_spec k "__proto__") as [->|_]; [done|].
  simpl. by rewrite lookup_insert_eq.
Qed.

Lemma zeroIfFalsy_lookup_ne o k k' : k <> k' -> zeroIfFalsy o k !! k' = o !! k'.
Proof.
  intros Hne. unfold zeroIfFalsy.
  destruct (truthy _); [reflexivity|]. by apply set_lookup_ne.
Qed.

Lemma zeroIfFalsy_lookup_eq o k :
  plainKey k -> numericAt o k ->
  zeroIfFalsy o k !! k = Some (PNum (counterAt o k)).
Proof.
  intros Hp Hn. unfold zeroIfFalsy, numericAt, counterAt in *.
  rewrite (get_plain _ _ Hp).
  destruct (o !! k) as [[n| |s]|] eqn:E; simpl; try done.
  - destruct (N.eqb_spec n 0) as [->|_]; simpl.
    + by rewrite set_lookup_eq; [|apply plain_not_proto].
    + exact E.
  - by rewrite set_lookup_eq; [|apply plain_not_proto].
Qed.

Lemma increment_lookup_ne o k k' : k <> k' -> increment o k !! k' = o !! k'.
Proof. intros Hne. unfold increment. by apply set_lookup_ne. Qed.

Lemma increment_lookup_eq o k n :
  plainKey k -> o !! k = Some (PNum n) ->
  increment o k !! k = Some (PNum (n + 1)).
Proof.
  intros Hp E. unfold increment.
  rewrite set_lookup_eq; [|by apply plain_not_proto].
  by rewrite (get_plain _ _ Hp), E.
Qed.

Lemma numericAt_lookup o o' k : o' !! k = o !! k -> numericAt o k -> numericAt o' k.
Proof. unfold numericAt. by intros ->. Qed.

Lemma counterAt_lookup o o' k : o' !! k = o !! k -> counterAt o' k = counterAt o k.
Proof. unfold counterAt. by intros ->. Qed.

Lemma numericAt_Some o k n : o !! k = Some (PNum n) -> numericAt o k.
Proof. unfold numericAt. by intros ->. Qed.

Lemma counterAt_Some o k n : o !! k = Some (PNum n) -> counterAt o k = n.
Proof. unfold counterAt. by intros ->. Qed.

(** The two statements [if (!o[k]) o[k] = 0; o[k] += 1;] on a plain
    numeric key store the successor of the count. *)
Lemma bump_lookup_eq o k :
  plainKey k -> numericAt o k ->
  increment (zeroIfFalsy o k) k !! k = Some (PNum (counterAt o k + 1)).
Proof.
  intros Hp Hn. apply increment_lookup_eq; [done|].
  by apply zeroIfFalsy_lookup_eq.
Qed.

End JSFacts.

(** ** The identifier resolver *)

Module ResolverFacts.
Import JS JSFacts WebIDL.

Lemma string_app_cons a s t : String a s +:+ t = String a (s +:+ t).
Proof. reflexivity. Qed.

Lemma string_app_nil_r s : s +:+ "" = s.
Proof.
  induction s as [|a s IH]; [reflexivity|].
  by rewrite string_app_cons, IH.
Qed.

Lemma string_app_length s1 s2 :
  String.length (s1 +:+ s2) = String.length s1 + String.length s2.
Proof.
  induction s1 as [|a s1 IH]; [reflexivity|].
  rewrite string_app_cons. simpl. by rewrite IH.
Qed.

Lemma includes_app_l c s1 s2 : includes c s1 = true -> includes c (s1 +:+ s2) = true.
Proof.
  induction s1 as [|a s1 IH]; [discriminate|].
  rewrite string_app_cons. simpl.
  intros [H|H]%orb_true_iff.
  - by rewrite H.
  - rewrite IH by done. apply orb_true_r.
Qed.

Lemma qualifiedName_plain p n : plainKey (qualifiedName p n).
Proof. apply includes_dot_plain. unfold qualifiedName. by apply includes_app_r. Qed.

Lemma fullyQualifiedName_plain p n : plainKey (fullyQualifiedName p n).
Proof.
  apply includes_dot_plain. unfold fullyQualifiedName, qualifiedName.
  by apply includes_app_l, includes_app_r.
Qed.

Lemma qualified_ne_callForm p n : fullyQualifiedName p n <> qualifiedName p n.
Proof.
  unfold fullyQualifiedName. intros H.
  apply (f_equal String.length) in H. rewrite string_app_length in H.
  simpl in H. lia.
Qed.

Lemma callable_not_container t : isCallable t = true -> isContainer t = false.
Proof.
  unfold isCallable, isContainer.
  intros [H|H]%orb_true_iff; apply String.eqb_eq in H; subst; reflexivity.
Qed.

(** *** [resolveOverload] seen from one key *)

Lemma resolveOverload_frame m n p :
  entries (resolveOverload m n p).2 = entries m
  /\ idlPartials (resolveOverload m n p).2 = idlPartials m.
Proof. unfold resolveOverload. by destruct (negb _). Qed.

Lemma resolveOverload_self m n p :
  let q := qualifiedName p n in
  numericAt (operationNames m) q ->
  (resolveOverload m n p).1
    = (if N.eqb (counterAt (operationNames m) q) 0 then ""
       else "!overload-" +:+ pretty (counterAt (operationNames m) q))
  /\ operationNames (resolveOverload m n p).2 !! q
     = Some (PNum (counterAt (operationNames m) q + 1)).
Proof.
  intros q Hn. unfold resolveOverload. fold q.
  pose proof (qualifiedName_plain p n) as Hq. fold q in Hq.
  pose proof (qualified_ne_callForm p n) as Hne. fold q in Hne.
  set (f := fullyQualifiedName p n) in *.
  set (o1 := zeroIfFalsy (operationNames m) f).
  assert (E1 : o1 !! q = operationNames m !! q) by by apply zeroIfFalsy_lookup_ne.
  rewrite (get_plain _ _ Hq), E1.
  unfold numericAt, counterAt in *.
  destruct (operationNames m !! q) as [[c| |s]|] eqn:E; try done; simpl.
  - destruct (N.eqb_spec c 0) as [->|Hc]; simpl.
    + split; [reflexivity|].
      rewrite (increment_lookup_eq _ _ 0%N); [done|done|].
      rewrite increment_lookup_ne by done.
      apply set_lookup_eq. by apply plain_not_proto.
    + split; [reflexivity|].
      rewrite (increment_lookup_eq _ _ c); [done|done|].
      by rewrite increment_lookup_ne.
  - split; [reflexivity|].
    rewrite (increment_lookup_eq _ _ 0%N); [done|done|].
    rewrite increment_lookup_ne by done.
    apply set_lookup_eq. by apply plain_not_proto.
Qed.

Lemma resolveOverload_callForm m n p :
  let f := fullyQualifiedName p n in
  numericAt (operationNames m) f ->
  operationNames (resolveOverload m n p).2 !! f
  = Some (PNum (counterAt (operationNames m) f + 1)).
Proof.
  intros f Hn. unfold resolveOverload. fold f.
  pose proof (fullyQualifiedName_plain p n) as Hf. fold f in Hf.
  pose proof (qualified_ne_callForm p n) as Hne. fold f in Hne.
  set (q := qualifiedName p n) in *.
  assert (E1 := zeroIfFalsy_lookup_eq _ _ Hf Hn).
  set (o1 := zeroIfFalsy (operationNames m) f) in *.
  destruct (negb (truthy (get o1 q))); simpl.
  - rewrite increment_lookup_ne by done.
    apply increment_lookup_eq; [done|].
    by rewrite set_lookup_ne.
  - rewrite increment_lookup_ne by done.
    by apply increment_lookup_eq.
Qed.

Lemma resolveOverload_other m n p k :
  k <> qualifiedName p n -> k <> fullyQualifiedName p n ->
  operationNames (resolveOverload m n p).2 !! k = operationNames m !! k.
Proof.
  intros Hq Hf. unfold resolveOverload.
  destruct (negb _); simpl;
    rewrite !increment_lookup_ne by done;
    rewrite ?set_lookup_ne by done;
    by apply zeroIfFalsy_lookup_ne.
Qed.

(** Whatever is resolved, a numeric counter of a plain key stays numeric
    and does not decrease. *)
Lemma resolveOverload_mono m n p k :
  plainKey k -> numericAt (operationNames m) k ->
  numericAt (operationNames (resolveOverload m n p).2) k
  /\ (counterAt (operationNames m) k
      <= counterAt (operationNames (resolveOverload m n p).2) k)%N.
Proof.
  intros Hp Hn.
  destruct (decide (k = qualifiedName p n)) as [->|Hq].
  { destruct (resolveOverload_self m n p Hn) as [_ E].
    rewrite (counterAt_Some _ _ _ E). split; [by eapply numericAt_Some | lia]. }
  destruct (decide (k = fullyQualifiedName p n)) as [->|Hf].
  { pose proof (resolveOverload_callForm m n p Hn) as E.
    rewrite (counterAt_Some _ _ _ E). split; [by eapply numericAt_Some | lia]. }
  pose proof (resolveOverload_other m n p k Hq Hf) as E.
  rewrite (counterAt_lookup _ _ _ E). split; [by eapply numericAt_lookup | lia].
Qed.

(** *** [resolvePartial] seen from one key *)

Lemma resolvePartial_frame m d :
  entries (resolvePartial m d).2 = entries m
  /\ operationNames (resolvePartial m d).2 = operationNames m.
Proof. unfold resolvePartial. by destruct (negb _). Qed.

Lemma resolvePartial_self m d :
  partial d = true -> plainKey (name d) ->
  numericAt (idlPartials m) (name d) ->
  (resolvePartial m d).1
    = "-partial-" +:+ pretty (counterAt (idlPartials m) (name d) + 1)%N
  /\ idlPartials (resolvePartial m d).2 !! name d
     = Some (PNum (counterAt (idlPartials m) (name d) + 1)).
Proof.
  intros Hpart Hp Hn. unfold resolvePartial. rewrite Hpart. simpl.
  pose proof (bump_lookup_eq _ _ Hp Hn) as E.
  by rewrite (get_plain _ _ Hp), E.
Qed.

Lemma resolvePartial_other m d k :
  k <> name d ->
  idlPartials (resolvePartial m d).2 !! k = idlPartials m !! k.
Proof.
  intros Hne. unfold resolvePartial. destruct (negb _); simpl; [done|].
  rewrite increment_lookup_ne by done. by apply zeroIfFalsy_lookup_ne.
Qed.

Lemma resolvePartial_nonpartial m d :
  partial d = false -> resolvePartial m d = ("", m).
Proof. unfold resolvePartial. by intros ->. Qed.

(** *** One call of [getNameAndId] *)

Lemma getNameAndId_known m ref d p r :
  entries m !! ref = Some r -> getNameAndId m ref d p = (r, m).
Proof. unfold getNameAndId. by intros ->. Qed.

Lemma getNameAndId_fresh m ref d p :
  entries m !! ref = None ->
  getNameAndId m ref d p
  = ((resolveNameAndId m d p).1,
     {| entries := <[ref := (resolveNameAndId m d p).1]>
                     (entries (resolveNameAndId m d p).2);
        operationNames := operationNames (resolveNameAndId m d p).2;
        idlPartials := idlPartials (resolveNameAndId m d p).2 |}).
Proof.
  unfold getNameAndId. intros ->. by destruct (resolveNameAndId m d p).
Qed.

Lemma resolveNameAndId_container m d p :
  isContainer (type d) = true ->
  resolveNameAndId m d p
  = ({| res_name := getDefnName d;
        idlId := getIdlId (getDefnName d) p +:+ (resolvePartial m d).1 |},
     (resolvePartial m d).2).
Proof.
  unfold resolveNameAndId. intros ->. by destruct (resolvePartial m d).
Qed.

Lemma resolveNameAndId_other m d p :
  isContainer (type d) = false -> isCallable (type d) = false ->
  resolveNameAndId m d p
  = ({| res_name := getDefnName d; idlId := getIdlId (getDefnName d) p |}, m).
Proof. unfold resolveNameAndId. by intros -> ->. Qed.

Lemma resolveNameAndId_callable_state m d p :
  isCallable (type d) = true ->
  (resolveNameAndId m d p).2 = (resolveOverload m (getDefnName d) p).2.
Proof.
  intros Hc. unfold resolveNameAndId.
  rewrite (callable_not_container _ Hc), Hc.
  destruct (resolveOverload m (getDefnName d) p) as [ov m'].
  by destruct (negb (String.eqb ov "")), (negb (Nat.eqb (length (arguments d)) 0)).
Qed.

Lemma argumentSegments_nil : argumentSegments [] = "".
Proof. reflexivity. Qed.

Lemma resolveNameAndId_callable_result m d p :
  isCallable (type d) = true ->
  numericAt (operationNames m) (qualifiedName p (getDefnName d)) ->
  (resolveNameAndId m d p).1
  = resolvedCallable d p
      (counterAt (operationNames m) (qualifiedName p (getDefnName d))).
Proof.
  intros Hc Hn. unfold resolveNameAndId, resolvedCallable.
  rewrite (callable_not_container _ Hc), Hc.
  destruct (resolveOverload_self m (getDefnName d) p Hn) as [Hov _].
  destruct (resolveOverload m (getDefnName d) p) as [ov m']. simpl in Hov.
  subst ov.
  destruct (N.eqb _ 0); simpl.
  - destruct (arguments d) as [|a args]; simpl.
    + by rewrite argumentSegments_nil, string_app_nil_r.
    + reflexivity.
  - reflexivity.
Qed.

Lemma resolveNameAndId_entries m d p :
  entries (resolveNameAndId m d p).2 = entries m.
Proof.
  destruct (isContainer (type d)) eqn:Hk.
  { rewrite resolveNameAndId_container by done. apply resolvePartial_frame. }
  destruct (isCallable (type d)) eqn:Hc.
  { rewrite resolveNameAndId_callable_state by done. apply resolveOverload_frame. }
  by rewrite resolveNameAndId_other.
Qed.

(** The [WeakMap] only grows, and it keeps what it holds. *)
Lemma getNameAndId_entries_None m ref d p x :
  entries (getNameAndId m ref d p).2 !! x = None
  <-> entries m !! x = None /\ x <> ref.
Proof.
  destruct (entries m !! ref) as [r|] eqn:E.
  - rewrite (getNameAndId_known _ _ _ _ _ E). simpl. split.
    + intros Hx. split; [done|]. intros ->. congruence.
    + by intros [? _].
  - rewrite (getNameAndId_fresh _ _ _ _ E). simpl.
    rewrite lookup_insert_None, resolveNameAndId_entries.
    split; intros [? ?]; split; congruence.
Qed.

Lemma getNameAndId_entries_Some m ref d p x r :
  entries m !! x = Some r ->
  entries (getNameAndId m ref d p).2 !! x = Some r.
Proof.
  intros Hx. destruct (entries m !! ref) as [r'|] eqn:E.
  - by rewrite (getNameAndId_known _ _ _ _ _ E).
  - rewrite (getNameAndId_fresh _ _ _ _ E). simpl.
    rewrite lookup_insert_ne by congruence.
    by rewrite resolveNameAndId_entries.
Qed.

Lemma getNameAndId_cached m ref d p :
  entries (getNameAndId m ref d p).2 !! ref = Some (getNameAndId m ref d p).1.
Proof.
  destruct (entries m !! ref) as [r|] eqn:E.
  - by rewrite (getNameAndId_known _ _ _ _ _ E).
  - rewrite (getNameAndId_fresh _ _ _ _ E). simpl. apply lookup_insert_eq.
Qed.

(** *** One call of a run, seen from one counter *)

Lemma resolveAll_cons m c cs :
  resolveAll m (c :: cs)
  = ((resolveCall m c).1 :: (resolveAll (resolveCall m c).2 cs).1,
     (resolveAll (resolveCall m c).2 cs).2).
Proof.
  simpl. destruct (resolveCall m c) as [r m1]. simpl.
  by destruct (resolveAll m1 cs).
Qed.

Lemma resolvesQualified_true q c :
  resolvesQualified q c = true ->
  isCallable (type (c_defn c)) = true
  /\ qualifiedName (c_parent c) (getDefnName (c_defn c)) = q.
Proof.
  unfold resolvesQualified. intros [H1 H2]%andb_true_iff.
  split; [done | by apply String.eqb_eq].
Qed.

Lemma resolvesPartial_true n c :
  resolvesPartial n c = true ->
  isContainer (type (c_defn c)) = true /\ partial (c_defn c) = true
  /\ name (c_defn c) = n.
Proof.
  unfold resolvesPartial. intros [[H1 H2]%andb_true_iff H3]%andb_true_iff.
  repeat split; [done | done | by apply String.eqb_eq].
Qed.

Lemma resolveCall_callable m c q :
  entries m !! c_ref c = None ->
  resolvesQualified q c = true ->
  numericAt (operationNames m) q ->
  (resolveCall m c).1
    = resolvedCallable (c_defn c) (c_parent c) (counterAt (operationNames m) q)
  /\ operationNames (resolveCall m c).2 !! q
     = Some (PNum (counterAt (operationNames m) q + 1)).
Proof.
  intros Hfresh [Hc <-]%resolvesQualified_true Hn. unfold resolveCall.
  rewrite (getNameAndId_fresh _ _ _ _ Hfresh). simpl. split.
  - by apply resolveNameAndId_callable_result.
  - rewrite resolveNameAndId_callable_state by done.
    by apply resolveOverload_self.
Qed.

Lemma resolveCall_operationNames_other m c q :
  resolvesQualified q c = false -> resolvesCallForm q c = false ->
  operationNames (resolveCall m c).2 !! q = operationNames m !! q.
Proof.
  intros Hq Hf. unfold resolveCall.
  destruct (entries m !! c_ref c) as [r|] eqn:E.
  { by rewrite (getNameAndId_known _ _ _ _ _ E). }
  rewrite (getNameAndId_fresh _ _ _ _ E). simpl.
  destruct (isContainer (type (c_defn c))) eqn:Hk.
  { rewrite resolveNameAndId_container by done. simpl.
    by rewrite (proj2 (resolvePartial_frame _ _)). }
  destruct (isCallable (type (c_defn c))) eqn:Hc.
  - rewrite resolveNameAndId_callable_state by done.
    unfold resolvesQualified, resolvesCallForm in *. rewrite Hc in *.
    simpl in *. apply String.eqb_neq in Hq, Hf.
    by apply resolveOverload_other.
  - by rewrite resolveNameAndId_other.
Qed.

Lemma resolveCall_operationNames_mono m c q :
  plainKey q -> numericAt (operationNames m) q ->
  numericAt (operationNames (resolveCall m c).2) q
  /\ (counterAt (operationNames m) q
      <= counterAt (operationNames (resolveCall m c).2) q)%N.
Proof.
  intros Hp Hn. unfold resolveCall.
  destruct (entries m !! c_ref c) as [r|] eqn:E.
  { rewrite (getNameAndId_known _ _ _ _ _ E). simpl. split; [done|lia]. }
  rewrite (getNameAndId_fresh _ _ _ _ E). simpl.
  destruct (isContainer (type (c_defn c))) eqn:Hk.
  { rewrite resolveNameAndId_container by done. simpl.
    rewrite (proj2 (resolvePartial_frame _ _)). split; [done|lia]. }
  destruct (isCallable (type (c_defn c))) eqn:Hc.
  - rewrite resolveNameAndId_callable_state by done.
    by apply resolveOverload_mono.
  - rewrite resolveNameAndId_other by done. simpl. split; [done|lia].
Qed.

Lemma resolveCall_partial m c n :
  entries m !! c_ref c = None ->
  resolvesPartial n c = true ->
  plainKey n -> numericAt (idlPartials m) n ->
  (resolveCall m c).1
    = resolvedPartial (c_defn c) (c_parent c) (counterAt (idlPartials m) n + 1)
  /\ idlPartials (resolveCall m c).2 !! n
     = Some (PNum (counterAt (idlPartials m) n + 1)).
Proof.
  intros Hfresh (Hk & Hpart & <-)%resolvesPartial_true Hp Hn. unfold resolveCall.
  rewrite (getNameAndId_fresh _ _ _ _ Hfresh). simpl.
  rewrite resolveNameAndId_container by done. simpl.
  destruct (resolvePartial_self m (c_defn c) Hpart Hp Hn) as [-> ->].
  by unfold resolvedPartial.
Qed.

Lemma resolveCall_idlPartials_other m c n :
  resolvesPartial n c = false ->
  idlPartials (resolveCall m c).2 !! n = idlPartials m !! n.
Proof.
  intros Hn. unfold resolveCall.
  destruct (entries m !! c_ref c) as [r|] eqn:E.
  { by rewrite (getNameAndId_known _ _ _ _ _ E). }
  rewrite (getNameAndId_fresh _ _ _ _ E). simpl.
  destruct (isContainer (type (c_defn c))) eqn:Hk.
  - rewrite resolveNameAndId_container by done. simpl.
    destruct (partial (c_defn c)) eqn:Hpart.
    + unfold resolvesPartial in Hn. rewrite Hk, Hpart in Hn. simpl in Hn.
      apply String.eqb_neq in Hn. by apply resolvePartial_other.
    + by rewrite resolvePartial_nonpartial.
  - destruct (isCallable (type (c_defn c))) eqn:Hc.
    + rewrite resolveNameAndId_callable_state by done.
      by rewrite (proj2 (resolveOverload_frame _ _ _)).
    + by rewrite resolveNameAndId_other.
Qed.

Lemma resolveCall_entries_None m c x :
  entries (resolveCall m c).2 !! x = None <-> entries m !! x = None /\ x <> c_ref c.
Proof. apply getNameAndId_entries_None. Qed.

Lemma resolveAll_entries_Some cs : forall m x r,
  entries m !! x = Some r -> entries (resolveAll m cs).2 !! x = Some r.
Proof.
  induction cs as [|c cs IH]; intros m x r Hx; [done|].
  rewrite resolveAll_cons. simpl. apply IH.
  by apply getNameAndId_entries_Some.
Qed.

(** *** A whole run *)

Lemma countPrior_0 f cs : countPrior f 0 cs = 0%N.
Proof. reflexivity. Qed.

Lemma countPrior_S f i c cs :
  countPrior f (S i) (c :: cs)
  = ((if f c then 1 else 0) + countPrior f i cs)%N.
Proof. unfold countPrior. simpl. destruct (f c); simpl; lia. Qed.

(** Nodes not yet in the [WeakMap] stay so until their own turn. *)
Lemma fresh_tail m a cs :
  NoDup (c_ref <$> a :: cs) ->
  Forall (fun c => entries m !! c_ref c = None) (a :: cs) ->
  entries m !! c_ref a = None
  /\ NoDup (c_ref <$> cs)
  /\ Forall (fun c => entries (resolveCall m a).2 !! c_ref c = None) cs.
Proof.
  rewrite fmap_cons, NoDup_cons, Forall_cons. intros [Hnotin Hnd] [Ha Hcs].
  repeat split; [done|done|].
  rewrite Forall_forall in *. intros c Hc.
  apply resolveCall_entries_None. split; [by apply Hcs|].
  intros Heq. apply Hnotin. rewrite <- Heq. by apply list_elem_of_fmap_2.
Qed.

Lemma newIDLNameMap_fresh cs :
  Forall (fun c => entries newIDLNameMap !! c_ref c = None) cs.
Proof. apply Forall_forall. intros c _. apply lookup_empty. Qed.

Lemma callable_numbering q cs : forall m i c r,
  NoDup (c_ref <$> cs) ->
  Forall (fun c => entries m !! c_ref c = None) cs ->
  plainKey q -> numericAt (operationNames m) q ->
  cs !! i = Some c -> resolvesQualified q c = true ->
  (resolveAll m cs).1 !! i = Some r ->
  exists k,
    r = resolvedCallable (c_defn c) (c_parent c) k
    /\ (counterAt (operationNames m) q + countPrior (resolvesQualified q) i cs
        <= k)%N
    /\ (Forall (fun c' => resolvesCallForm q c' = false) (take i cs) ->
        k = (counterAt (operationNames m) q
             + countPrior (resolvesQualified q) i cs)%N).
Proof.
  induction cs as [|a cs IH]; intros m i c r Hnd Hfresh Hp Hn Hc Hq Hr;
    [done|].
  destruct (fresh_tail _ _ _ Hnd Hfresh) as (Ha & Hnd' & Hfresh').
  rewrite resolveAll_cons in Hr. simpl in Hr.
  destruct i as [|i]; simpl in Hc, Hr.
  - injection Hc as ->. injection Hr as <-.
    destruct (resolveCall_callable m c q Ha Hq Hn) as [-> _].
    exists (counterAt (operationNames m) q).
    rewrite countPrior_0. repeat split; [lia|intros _; lia].
  - destruct (resolveCall_operationNames_mono m a q Hp Hn) as [Hn' Hle].
    destruct (IH _ _ _ _ Hnd' Hfresh' Hp Hn' Hc Hq Hr) as (k & -> & Hk & Hex).
    exists k. rewrite countPrior_S. split; [done|].
    destruct (resolvesQualified q a) eqn:Hqa.
    + destruct (resolveCall_callable m a q Ha Hqa Hn) as [_ E].
      rewrite (counterAt_Some _ _ _ E) in *. split; [lia|].
      intros Hno. rewrite firstn_cons, Forall_cons in Hno.
      rewrite (Hex (proj2 Hno)). lia.
    + split; [lia|].
      intros Hno. rewrite firstn_cons, Forall_cons in Hno.
      destruct Hno as [Hfa Hno].
      pose proof (resolveCall_operationNames_other m a q Hqa Hfa) as E.
      rewrite (Hex Hno), (counterAt_lookup _ _ _ E). lia.
Qed.

Lemma partial_numbering n cs : forall m i c r,
  NoDup (c_ref <$> cs) ->
  Forall (fun c => entries m !! c_ref c = None) cs ->
  plainKey n -> numericAt (idlPartials m) n ->
  cs !! i = Some c -> resolvesPartial n c = true ->
  (resolveAll m cs).1 !! i = Some r ->
  r = resolvedPartial (c_defn c) (c_parent c)
        (counterAt (idlPartials m) n + countPrior (resolvesPartial n) i cs + 1).
Proof.
  induction cs as [|a cs IH]; intros m i c r Hnd Hfresh Hp Hn Hc Hq Hr;
    [done|].
  destruct (fresh_tail _ _ _ Hnd Hfresh) as (Ha & Hnd' & Hfresh').
  rewrite resolveAll_cons in Hr. simpl in Hr.
  destruct i as [|i]; simpl in Hc, Hr.
  - injection Hc as ->. injection Hr as <-.
    destruct (resolveCall_partial m c n Ha Hq Hp Hn) as [-> _].
    rewrite countPrior_0. f_equal; lia.
  - rewrite countPrior_S.
    destruct (resolvesPartial n a) eqn:Hna.
    + destruct (resolveCall_partial m a n Ha Hna Hp Hn) as [_ E].
      rewrite (IH _ _ _ _ Hnd' Hfresh' Hp (numericAt_Some _ _ _ E) Hc Hq Hr).
      rewrite (counterAt_Some _ _ _ E). f_equal; lia.
    + pose proof (resolveCall_idlPartials_other m a n Hna) as E.
      rewrite (IH _ _ _ _ Hnd' Hfresh' Hp (numericAt_lookup _ _ _ E Hn) Hc Hq Hr).
      rewrite (counterAt_lookup _ _ _ E). f_equal; lia.
Qed.







Lemma callForm_includes_paren p n :
  includes "(" (fullyQualifiedName p n) = true.
Proof. unfold fullyQualifiedName. by apply includes_app_r. Qed.

(** A string without [(] is the call form of nothing. *)
Lemma no_paren_no_callForm q c :
  includes "(" q = false -> resolvesCallForm q c = false.
Proof.
  intros Hq. unfold resolvesCallForm.
  destruct (isCallable (type (c_defn c))); [simpl|done].
  apply String.eqb_neq. intros <-.
  by rewrite callForm_includes_paren in Hq.
Qed.

(** *** The claims about the resolver *)


(** C5, as worded, fails: the first resolution of [bar(long x)] in [Foo]
    does add to the anchor id, namely the argument segment [-x]. *)
Lemma first_resolution_adds_argument_segments :
  ~ overloadRuleAsWorded barWithArgument.
Proof.
  intros H.
  specialize (H "Foo.bar" 0%nat (mkCall 1 (mkOperation "bar" ["x"]) "Foo")
                {| res_name := "bar"; idlId := "idl-def-foo-bar-x" |}
                eq_refl eq_refl eq_refl).
  discriminate H.
Qed.

(** C5 (amended). In one run, take the operations and constructors of one
    qualified name [parent.name], a string without [(] as the names of the
    parser are.  The first of them keeps its name, and its anchor id gets
    only the segments [-<lowercased argument name>] of its arguments (none
    without arguments); the one that [k >= 1] of them precede gets
    [!overload-<k>] appended to both name and anchor id. *)
Theorem overload_numbering cs q i c r :
  NoDup (c_ref <$> cs) ->
  includes "(" q = false ->
  cs !! i = Some c ->
  resolvesQualified q c = true ->
  (resolveAll newIDLNameMap cs).1 !! i = Some r ->
  r = resolvedCallable (c_defn c) (c_parent c)
        (countPrior (resolvesQualified q) i cs).
Proof.
  intros Hnd Hparen Hc Hq Hr.
  pose proof (newIDLNameMap_fresh cs) as Hfresh.
  assert (Hp : plainKey q).
  { apply resolvesQualified_true in Hq as [_ <-]. apply qualifiedName_plain. }
  destruct (callable_numbering q cs newIDLNameMap i c r Hnd Hfresh Hp I Hc Hq Hr)
    as (k & -> & _ & Hk).
  rewrite Hk; [done|].
  apply Forall_forall. intros c' _. by apply no_paren_no_callForm.
Qed.

Lemma overload_numbering_witness :
  {| res_name := "foo!overload-2"; idlId := "idl-def-p-foo!overload-2" |}
  = resolvedCallable (mkOperation "foo" []) "P" 2.
Proof.
  apply (overload_numbering threeFoo "P.foo" 2
           (mkCall 3 (mkOperation "foo" []) "P")).
  - apply (bool_decide_unpack _). reflexivity.
  - reflexivity.
  - reflexivity.
  - reflexivity.
  - reflexivity.
Defined.

Example three_foo_names :
  res_name <$> (resolveAll newIDLNameMap threeFoo).1
  = ["foo"; "foo!overload-1"; "foo!overload-2"].
Proof. reflexivity. Qed.

(** C8. Asking for the identity of a node again, after any resolutions
    of this or other nodes in between and whatever fields and parent name
    accompany the second request, returns the result of the first request
    and leaves the whole state, so every partial counter and every
    operation-name counter, as it was. *)
Theorem getNameAndId_idempotent m ref d p cs d' p' :
  getNameAndId (resolveAll (getNameAndId m ref d p).2 cs).2 ref d' p'
  = ((getNameAndId m ref d p).1, (resolveAll (getNameAndId m ref d p).2 cs).2).
Proof.
  apply getNameAndId_known, resolveAll_entries_Some, getNameAndId_cached.
Qed.

(** C9, at a name that every object literal inherits: the counter object
    is a plain [{}], so for [partial dictionary valueOf {};] the read of
    [idlPartials["valueOf"]] finds the built-in function, the counter is
    not reset to 0, and [+= 1] concatenates.  The anchor id does not end
    in [-partial-1]. *)
Theorem partial_counter_inherited_name :
  idlId <$> (resolveAll newIDLNameMap partialValueOf).1
  = ["idl-def-valueof-partial-function valueOf() { [native code] }1"].
Proof. reflexivity. Qed.

(** For every other name the counter works as intended: the [k]-th
    partial container of a name that [Object.prototype] does not define
    gets [-partial-<k>]. *)
Theorem partial_numbering_plain cs n i c r :
  NoDup (c_ref <$> cs) ->
  plainKey n ->
  cs !! i = Some c ->
  resolvesPartial n c = true ->
  (resolveAll newIDLNameMap cs).1 !! i = Some r ->
  r = resolvedPartial (c_defn c) (c_parent c)
        (countPrior (resolvesPartial n) i cs + 1).
Proof.
  intros Hnd Hp Hc Hn Hr.
  pose proof (newIDLNameMap_fresh cs) as Hfresh.
  by rewrite (partial_numbering n cs newIDLNameMap i c r Hnd Hfresh Hp I Hc Hn Hr).
Qed.

(** [interface Foo { void bar(); void bar(long x); };] *)
Example bar_and_its_overload :
  idlId <$> (resolveAll newIDLNameMap
               [ mkCall 1 (mkOperation "bar" []) "Foo";
                 mkCall 2 (mkOperation "bar" ["x"]) "Foo" ]).1
  = ["idl-def-foo-bar"; "idl-def-foo-bar!overload-1"].
Proof. reflexivity. Qed.

Example two_partial_bar :
  idlId <$> (resolveAll newIDLNameMap twoPartialBar).1
  = ["idl-def-bar-partial-1"; "idl-def-bar-partial-2"].
Proof. reflexivity. Qed.

End ResolverFacts.

(** ** The definition linker *)

Module LinkerFacts.
Import JS WebIDL.

(** C4, as worded, fails: for [interface Baz {};] without a definition in
    the registry every premise of the rule holds, and [defineIdlName]
    creates the definition, without a warning and without an unlinked
    reference. *)
Lemma missing_definition_creates_dfn :
  ~ missingDfnRuleAsWorded emptyRegistry newIDLNameMap "Baz" 1 interfaceBaz None.
Proof.
  unfold missingDfnRuleAsWorded. intros H.
  destruct H as [H _]; try done.
  by intros [? _].
Qed.

(** C4 (amended). For a node without a definition in the registry that is
    not the default [toJSON], no missing-definition warning is emitted: a
    node that is not partial becomes a new definition, registered once
    under its resolved name, and a partial node is rendered as an unlinked
    reference with no call on the registry. *)
Theorem missing_definition_outcome findDfn m escaped ref data parent :
  let resolved := (getNameAndId m ref data (parentNameOf parent)).1 in
  let out := defineIdlName findDfn m escaped ref data parent in
  findDfn data (res_name resolved) (parentNameOf parent) = None ->
  isDefaultJSON data = false ->
  List.filter isShowInlineWarning out.1.2 = []
  /\ (partial data = false ->
      out.1.1 = NewDfn (getDfnType (type data)) escaped
      /\ List.filter isRegisterDefinition out.1.2
         = [RegisterDefinition CreatedDfn [res_name resolved]])
  /\ (partial data = true ->
      out.1.1 = UnlinkedAnchor (Some "partial") (getDfnType (type data))
                  (name data) escaped
      /\ out.1.2 = []).
Proof.
  intros resolved out Hnone Hjson. subst resolved out.
  unfold defineIdlName.
  destruct (getNameAndId m ref data (parentNameOf parent)) as [r m'].
  simpl in *. rewrite Hnone, Hjson.
  destruct (partial data); simpl.
  - rewrite andb_false_r. simpl. repeat split; done.
  - repeat split; done.
Qed.

Lemma missing_definition_outcome_witness :
  List.filter isShowInlineWarning
    (defineIdlName emptyRegistry newIDLNameMap "Baz" 1 interfaceBaz None).1.2 = []
  /\ (defineIdlName emptyRegistry newIDLNameMap "Baz" 1 interfaceBaz None).1.1
     = NewDfn "interface" "Baz".
Proof.
  destruct (missing_definition_outcome emptyRegistry newIDLNameMap "Baz" 1
              interfaceBaz None eq_refl eq_refl) as (Hw & Hnew & _).
  split; [exact Hw | exact (proj1 (Hnew eq_refl))].
Defined.

(** C10. [defineIdlName] never calls [showInlineWarning]: the unlinked
    anchor is returned only for a partial node without a definition in the
    registry, and there the guard [showWarnings] is false. *)
Theorem defineIdlName_never_warns findDfn m escaped ref data parent :
  let resolved := (getNameAndId m ref data (parentNameOf parent)).1 in
  let out := defineIdlName findDfn m escaped ref data parent in
  List.filter isShowInlineWarning out.1.2 = []
  /\ (isUnlinkedAnchor out.1.1 = true ->
      partial data = true
      /\ findDfn data (res_name resolved) (parentNameOf parent) = None).
Proof.
  intros resolved out. subst resolved out. unfold defineIdlName.
  destruct (getNameAndId m ref data (parentNameOf parent)) as [r m'].
  simpl.
  destruct (findDfn data (res_name r) (parentNameOf parent)) as [id|].
  { destruct (partial data); simpl; split; done. }
  destruct (isDefaultJSON data); [split; done|].
  destruct (partial data); simpl.
  - rewrite andb_false_r. simpl. split; done.
  - split; done.
Qed.

Lemma defineIdlName_never_warns_witness :
  List.filter isShowInlineWarning
    (defineIdlName emptyRegistry newIDLNameMap "Baz" 1 partialInterfaceBaz None).1.2
  = []
  /\ partial partialInterfaceBaz = true.
Proof.
  destruct (defineIdlName_never_warns emptyRegistry newIDLNameMap "Baz" 1
              partialInterfaceBaz None) as [Hw Hu].
  split; [exact Hw | exact (proj1 (Hu eq_refl))].
Defined.

End LinkerFacts.

(** ** Cross-reference disambiguation and annotation *)

Module XrefFacts.
Import JS Xref.

Lemma existsb_eqb_false x (l : list string) :
  x ∉ l -> existsb (String.eqb x) l = false.
Proof.
  induction l as [|y l IH]; [done|].
  rewrite not_elem_of_cons. intros [Hne Hl]. simpl.
  rewrite IH by done. by apply String.eqb_neq in Hne as ->.
Qed.

Lemma classListAdd_elem c e : c ∈ classList (classListAdd c e).
Proof.
  unfold classListAdd. simpl.
  destruct (existsb (String.eqb c) (classList e)) eqn:E.
  - apply existsb_exists in E as (y & Hy & ->%String.eqb_eq).
    by apply list_elem_of_In.
  - apply elem_of_app. right. by apply list_elem_of_singleton.
Qed.

Lemma updateElem_lookup r f s : dom (updateElem r f s) !!! r = f (dom s !!! r).
Proof. unfold updateElem. simpl. by rewrite lookup_total_insert_eq. Qed.

Lemma take_1_lookup_1 {A} (l : list A) : take 1 l !! 1%nat = None.
Proof. by destruct l. Qed.

(** An accepted candidate whose uri contains [/]: [uri.split("/", 1)] has
    one element, its index 1 is [undefined], and [path.split] throws. *)
Lemma annotateEntry_slash data e s r :
  disambiguate data e s = (Some r, s) ->
  includes "/" (uri r) = true ->
  completes (annotateEntry data e s) = false.
Proof.
  intros Hd Hslash. unfold annotateEntry. rewrite Hd, Hslash.
  unfold splitLimit. by rewrite take_1_lookup_1.
Qed.

(** An accepted candidate whose uri contains no [/]: the element gets
    [cite], [citePath] and [citeFrag] from the candidate's spec and from
    the uri cut at [#]. *)
Lemma annotateEntry_no_slash data e s r :
  disambiguate data e s = (Some r, s) ->
  includes "/" (uri r) = false ->
  exists s',
    annotateEntry data e s = Completed s'
    /\ dataset (dom s' !!! elem e) !! "cite" = Some (spec r)
    /\ dataset (dom s' !!! elem e) !! "citePath"
       = Some (domString (split "#" (specPath (uri r)) !! 0%nat))
    /\ dataset (dom s' !!! elem e) !! "citeFrag"
       = Some (domString (split "#" (specPath (uri r)) !! 1%nat)).
Proof.
  intros Hd Hslash. unfold annotateEntry, specPath. rewrite Hd, Hslash.
  eexists. split; [reflexivity|].
  rewrite updateElem_lookup. unfold assignCite. simpl.
  repeat split.
  - rewrite lookup_insert_ne by done. rewrite lookup_insert_ne by done.
    by rewrite lookup_insert_eq.
  - rewrite lookup_insert_ne by done. by rewrite lookup_insert_eq.
  - by rewrite lookup_insert_eq.
Qed.

(** *** The claims about the xref resolver *)

(** C2, at an accepted candidate whose uri contains a path separator:
    [addDataCiteToTerms] throws a [TypeError], after it has added the
    candidate's spec to the normative references. *)
Theorem addDataCiteToTerms_throws :
  addDataCiteToTerms [("event", Some [domEvent])]
    {[ "event" := [occurrence []] ]} oneElement
  = Threw "TypeError: Cannot read properties of undefined (reading 'split')"
      (addNormative "dom" oneElement).
Proof. reflexivity. Qed.

(** C3, at the same candidate: the callback ends in the exception and
    writes no metadata, where the claim has [cite = dom], an empty
    [citePath] and [citeFrag = concept-event]. *)
Theorem annotateEntry_slash_writes_nothing :
  completes (annotateEntry (Some [domEvent]) (occurrence []) oneElement) = false
  /\ dataset (dom (stateOf (annotateEntry (Some [domEvent]) (occurrence [])
                              oneElement)) !!! 1%nat) = ∅
  /\ split "#" (specPath (uri domEvent)) = [""; "concept-event"].
Proof. repeat split; reflexivity. Qed.

(** C6. A single candidate: when the occurrence has a non-empty [specs]
    constraint that does not contain the candidate's spec, [disambiguate]
    returns nothing, marks the element as offending and logs a diagnostic,
    and the callback ends without touching the element's metadata; when
    the constraint is empty, the candidate is accepted. *)
Theorem disambiguate_single c e s :
  (specs e <> [] -> spec c ∉ specs e ->
   (disambiguate (Some [c]) e s).1 = None
   /\ offending ∈ classList (dom (disambiguate (Some [c]) e s).2 !!! elem e)
   /\ console (disambiguate (Some [c]) e s).2
      = (console s ++ [{| log_message := "No data for "; log_elem := elem e |}])%list
   /\ annotateEntry (Some [c]) e s = Completed (disambiguate (Some [c]) e s).2
   /\ dataset (dom (disambiguate (Some [c]) e s).2 !!! elem e)
      = dataset (dom s !!! elem e))
  /\ (specs e = [] -> disambiguate (Some [c]) e s = (Some c, s)).
Proof.
  split.
  - intros Hne Hnot. unfold annotateEntry, disambiguate.
    rewrite (existsb_eqb_false _ _ Hnot).
    destruct (specs e) as [|x l]; [done|]. simpl.
    rewrite lookup_total_insert_eq. repeat split; try done.
    apply classListAdd_elem.
  - intros Hnil. unfold disambiguate. by rewrite Hnil.
Qed.

Lemma disambiguate_single_witness :
  (disambiguate (Some [domEvent]) (occurrence ["html"]) oneElement).1 = None
  /\ disambiguate (Some [domEvent]) (occurrence []) oneElement
     = (Some domEvent, oneElement).
Proof.
  destruct (disambiguate_single domEvent (occurrence ["html"]) oneElement)
    as [Hreject _].
  destruct (disambiguate_single domEvent (occurrence []) oneElement)
    as [_ Haccept].
  split.
  - refine (proj1 (Hreject _ _)); [discriminate|].
    apply (bool_decide_unpack _). reflexivity.
  - exact (Haccept eq_refl).
Defined.

(** C7. Two or more candidates: whatever the [specs] constraint,
    [disambiguate] returns nothing, marks the element as offending and
    logs a diagnostic, and the callback ends without accepting a candidate
    and without touching the element's metadata or the reference sets. *)
Theorem disambiguate_ambiguous cs e s :
  (2 <= length cs)%nat ->
  (disambiguate (Some cs) e s).1 = None
  /\ offending ∈ classList (dom (disambiguate (Some cs) e s).2 !!! elem e)
  /\ console (disambiguate (Some cs) e s).2
     = (console s
        ++ [{| log_message := "Ambiguity in data for"; log_elem := elem e |}])%list
  /\ annotateEntry (Some cs) e s = Completed (disambiguate (Some cs) e s).2
  /\ dataset (dom (disambiguate (Some cs) e s).2 !!! elem e)
     = dataset (dom s !!! elem e)
  /\ normativeReferences (disambiguate (Some cs) e s).2 = normativeReferences s
  /\ informativeReferences (disambiguate (Some cs) e s).2
     = informativeReferences s.
Proof.
  intros Hlen. destruct cs as [|c1 [|c2 cs]]; simpl in Hlen; [lia|lia|].
  unfold annotateEntry, disambiguate. simpl.
  rewrite lookup_total_insert_eq. repeat split; try done.
  apply classListAdd_elem.
Qed.

Lemma disambiguate_ambiguous_witness :
  (disambiguate (Some [domEvent; htmlEvent]) (occurrence ["dom"]) oneElement).1
  = None.
Proof.
  refine (proj1 (disambiguate_ambiguous [domEvent; htmlEvent] (occurrence ["dom"])
                   oneElement _)).
  simpl. lia.
Defined.

End XrefFacts.

(** ** More about the identifier resolver *)

Module ResolverMore.
Import JS JSFacts WebIDL ResolverFacts.

(** The Shepherd type of a Shepherd type is itself: the mapping sends the
    four internal kinds away and fixes everything it produces. *)
Theorem getDfnType_idempotent t : getDfnType (getDfnType t) = getDfnType t.
Proof.
  unfold getDfnType.
  destruct (String.eqb_spec t "operation") as [->|H1]; [done|].
  destruct (String.eqb_spec t "field") as [->|H2]; [done|].
  destruct (String.eqb_spec t "callback interface") as [->|H3]; [done|].
  destruct (String.eqb_spec t "interface mixin") as [->|H4]; [done|].
  simpl.
  apply String.eqb_neq in H1, H2, H3, H4. by rewrite H1, H2, H3, H4.
Qed.

(** The result of the call at position [i] of a run of distinct new nodes
    is what [resolveNameAndId] computes in the state that the calls
    before it have left. *)
Lemma resolveAll_result_at cs : forall m i c,
  NoDup (c_ref <$> cs) ->
  Forall (fun c => entries m !! c_ref c = None) cs ->
  cs !! i = Some c ->
  (resolveAll m cs).1 !! i
  = Some (resolveNameAndId (resolveAll m (take i cs)).2 (c_defn c) (c_parent c)).1.
Proof.
  induction cs as [|a cs IH]; intros m i c Hnd Hfresh Hc; [done|].
  destruct (fresh_tail _ _ _ Hnd Hfresh) as (Ha & Hnd' & Hfresh').
  rewrite resolveAll_cons. destruct i as [|i]; simpl in Hc.
  - injection Hc as ->. simpl. unfold resolveCall.
    by rewrite (getNameAndId_fresh _ _ _ _ Ha).
  - rewrite firstn_cons, resolveAll_cons. simpl. by apply IH.
Qed.

Lemma resolveNameAndId_no_counter m d p :
  isCallable (type d) = false ->
  isContainer (type d) = false \/ partial d = false ->
  resolveNameAndId m d p = (bareIdentity d p, m).
Proof.
  intros Hc Hk. destruct (isContainer (type d)) eqn:E.
  - destruct Hk as [?|Hpart]; [done|].
    rewrite resolveNameAndId_container by done.
    rewrite resolvePartial_nonpartial by done. simpl.
    by rewrite string_app_nil_r.
  - by rewrite resolveNameAndId_other.
Qed.

(** Nodes without a counter get no disambiguation: in a run of distinct
    nodes, a node that is neither an operation or constructor nor a
    partial container resolves to its bare name and the bare id built
    from parent name and name, whatever was resolved before it. *)
Theorem bare_identity_without_counter cs i c r :
  NoDup (c_ref <$> cs) ->
  cs !! i = Some c ->
  isCallable (type (c_defn c)) = false ->
  isContainer (type (c_defn c)) = false \/ partial (c_defn c) = false ->
  (resolveAll newIDLNameMap cs).1 !! i = Some r ->
  r = bareIdentity (c_defn c) (c_parent c).
Proof.
  intros Hnd Hc Hcall Hk Hr.
  rewrite (resolveAll_result_at cs newIDLNameMap i c Hnd
             (newIDLNameMap_fresh cs) Hc) in Hr.
  rewrite resolveNameAndId_no_counter in Hr by done. by injection Hr.
Qed.

Lemma bare_identity_without_counter_witness :
  {| res_name := "foo"; idlId := "idl-def-foo" |}
  = bareIdentity (mkContainer "dictionary" "foo" false) "".
Proof.
  apply (bare_identity_without_counter fooAndFoo 1
           (mkCall 2 (mkContainer "dictionary" "foo" false) "")).
  - apply (bool_decide_unpack _). reflexivity.
  - reflexivity.
  - reflexivity.
  - right. reflexivity.
  - reflexivity.
Defined.

Lemma operationNames_after q cs : forall m,
  NoDup (c_ref <$> cs) ->
  Forall (fun c => entries m !! c_ref c = None) cs ->
  plainKey q -> numericAt (operationNames m) q ->
  Forall (fun c => resolvesCallForm q c = false) cs ->
  operationNames (resolveAll m cs).2 !! q
  = (let k := countPrior (resolvesQualified q) (length cs) cs in
     if N.eqb k 0 then operationNames m !! q
     else Some (PNum (counterAt (operationNames m) q + k))).
Proof.
  induction cs as [|a cs IH]; intros m Hnd Hfresh Hp Hn Hno; [done|].
  destruct (fresh_tail _ _ _ Hnd Hfresh) as (Ha & Hnd' & Hfresh').
  apply Forall_cons in Hno as [Hfa Hno].
  rewrite resolveAll_cons. simpl length. rewrite countPrior_S. simpl.
  destruct (resolveCall_operationNames_mono m a q Hp Hn) as [Hn' _].
  rewrite (IH _ Hnd' Hfresh' Hp Hn' Hno). simpl.
  destruct (resolvesQualified q a) eqn:Hqa.
  - destruct (resolveCall_callable m a q Ha Hqa Hn) as [_ E].
    rewrite E, (counterAt_Some _ _ _ E).
    destruct (N.eqb_spec (countPrior (resolvesQualified q) (length cs) cs) 0)
      as [->|Hk].
    + simpl. f_equal; f_equal; lia.
    + destruct (N.eqb_spec (1 + countPrior (resolvesQualified q) (length cs) cs) 0);
        [lia|]. f_equal; f_equal; lia.
  - pose proof (resolveCall_operationNames_other m a q Hqa Hfa) as E.
    rewrite E, (counterAt_lookup _ _ _ E).
    by destruct (N.eqb _ 0).
Qed.

Lemma countPrior_none f cs :
  Forall (fun c => f c = false) cs -> countPrior f (length cs) cs = 0%N.
Proof.
  induction cs as [|a cs IH]; [done|].
  intros [Ha Hcs]%Forall_cons. simpl length.
  by rewrite countPrior_S, Ha, IH.
Qed.

Lemma operationNames_untouched q cs : forall m,
  Forall (fun c => resolvesQualified q c = false) cs ->
  Forall (fun c => resolvesCallForm q c = false) cs ->
  operationNames (resolveAll m cs).2 !! q = operationNames m !! q.
Proof.
  induction cs as [|a cs IH]; intros m Hq Hf; [done|].
  apply Forall_cons in Hq as [Hqa Hq]. apply Forall_cons in Hf as [Hfa Hf].
  rewrite resolveAll_cons. simpl. rewrite IH by done.
  by apply resolveCall_operationNames_other.
Qed.

(** After a run of distinct nodes the counter of a qualified name (a
    string without [(]) holds the number of operations and constructors
    of that name that were resolved, and is absent when there were none. *)
Theorem operation_counter_counts cs q :
  NoDup (c_ref <$> cs) ->
  includes "(" q = false ->
  operationNames (resolveAll newIDLNameMap cs).2 !! q
  = (let k := countPrior (resolvesQualified q) (length cs) cs in
     if N.eqb k 0 then None else Some (PNum k)).
Proof.
  intros Hnd Hparen.
  assert (Hno : Forall (fun c => resolvesCallForm q c = false) cs).
  { apply Forall_forall. intros c _. by apply no_paren_no_callForm. }
  destruct (includes "." q) eqn:Hdot.
  - by rewrite (operationNames_after q cs newIDLNameMap Hnd
                  (newIDLNameMap_fresh cs) (includes_dot_plain _ Hdot) I Hno).
  - assert (Hnone : Forall (fun c => resolvesQualified q c = false) cs).
    { apply Forall_forall. intros c _. unfold resolvesQualified.
      destruct (isCallable _); [simpl|done].
      apply String.eqb_neq. intros <-.
      pose proof (includes_app_r "." (c_parent c)
                    ("." +:+ getDefnName (c_defn c)) eq_refl) as Hd.
      unfold qualifiedName in Hdot. congruence. }
    rewrite (countPrior_none _ _ Hnone). simpl.
    by rewrite operationNames_untouched.
Qed.

Lemma operation_counter_counts_witness :
  operationNames (resolveAll newIDLNameMap threeFoo).2 !! "P.foo"
  = Some (PNum 3).
Proof.
  apply (operation_counter_counts threeFoo "P.foo").
  - apply (bool_decide_unpack _). reflexivity.
  - reflexivity.
Defined.

Lemma idlPartials_after n cs : forall m,
  NoDup (c_ref <$> cs) ->
  Forall (fun c => entries m !! c_ref c = None) cs ->
  plainKey n -> numericAt (idlPartials m) n ->
  idlPartials (resolveAll m cs).2 !! n
  = (let k := countPrior (resolvesPartial n) (length cs) cs in
     if N.eqb k 0 then idlPartials m !! n
     else Some (PNum (counterAt (idlPartials m) n + k))).
Proof.
  induction cs as [|a cs IH]; intros m Hnd Hfresh Hp Hn; [done|].
  destruct (fresh_tail _ _ _ Hnd Hfresh) as (Ha & Hnd' & Hfresh').
  rewrite resolveAll_cons. simpl length. rewrite countPrior_S. simpl.
  destruct (resolvesPartial n a) eqn:Hna.
  - destruct (resolveCall_partial m a n Ha Hna Hp Hn) as [_ E].
    rewrite (IH _ Hnd' Hfresh' Hp (numericAt_Some _ _ _ E)). simpl.
    rewrite E, (counterAt_Some _ _ _ E).
    destruct (N.eqb_spec (countPrior (resolvesPartial n) (length cs) cs) 0)
      as [->|Hk].
    + simpl. f_equal; f_equal; lia.
    + destruct (N.eqb_spec (1 + countPrior (resolvesPartial n) (length cs) cs) 0);
        [lia|]. f_equal; f_equal; lia.
  - pose proof (resolveCall_idlPartials_other m a n Hna) as E.
    rewrite (IH _ Hnd' Hfresh' Hp (numericAt_lookup _ _ _ E Hn)). simpl.
    rewrite E, (counterAt_lookup _ _ _ E).
    by destruct (N.eqb _ 0).
Qed.

(** After a run of distinct nodes the partial counter of a name that
    [Object.prototype] does not define holds the number of partial
    containers of that name that were resolved, and is absent when there
    were none: containers that are not partial and nodes of other kinds
    leave it alone. *)
Theorem partial_counter_counts cs n :
  NoDup (c_ref <$> cs) ->
  plainKey n ->
  idlPartials (resolveAll newIDLNameMap cs).2 !! n
  = (let k := countPrior (resolvesPartial n) (length cs) cs in
     if N.eqb k 0 then None else Some (PNum k)).
Proof.
  intros Hnd Hp.
  by rewrite (idlPartials_after n cs newIDLNameMap Hnd (newIDLNameMap_fresh cs) Hp I).
Qed.

Lemma partial_counter_counts_witness :
  idlPartials (resolveAll newIDLNameMap twoPartialBar).2 !! "Bar"
  = Some (PNum 2).
Proof.
  apply (partial_counter_counts twoPartialBar "Bar").
  - apply (bool_decide_unpack _). reflexivity.
  - reflexivity.
Defined.

Lemma resolveAll_entries_None cs : forall m x,
  entries (resolveAll m cs).2 !! x = None
  <-> entries m !! x = None /\ x ∉ c_ref <$> cs.
Proof.
  induction cs as [|a cs IH]; intros m x.
  - simpl. split; [intros H; split; [done|apply not_elem_of_nil] | by intros [? _]].
  - rewrite resolveAll_cons. simpl. rewrite IH, resolveCall_entries_None.
    rewrite not_elem_of_cons. tauto.
Qed.

(** After a run the [WeakMap] holds exactly the nodes that were asked
    for, each with the identity that every request for it returned. *)
Theorem entries_after_run cs :
  (forall i c r,
     cs !! i = Some c ->
     (resolveAll newIDLNameMap cs).1 !! i = Some r ->
     entries (resolveAll newIDLNameMap cs).2 !! c_ref c = Some r)
  /\ (forall x,
        entries (resolveAll newIDLNameMap cs).2 !! x = None
        <-> x ∉ c_ref <$> cs).
Proof.
  split.
  - generalize newIDLNameMap.
    induction cs as [|a cs IH]; intros m i c r Hc Hr; [done|].
    rewrite resolveAll_cons in *. simpl in *.
    destruct i as [|i]; simpl in Hc, Hr.
    + injection Hc as ->. injection Hr as <-.
      apply resolveAll_entries_Some. unfold resolveCall.
      apply getNameAndId_cached.
    + by eapply IH.
  - intros x. rewrite resolveAll_entries_None. simpl.
    rewrite lookup_empty. tauto.
Qed.

Lemma entries_after_run_witness :
  entries (resolveAll newIDLNameMap threeFoo).2 !! 3%nat
  = Some {| res_name := "foo!overload-2"; idlId := "idl-def-p-foo!overload-2" |}.
Proof.
  apply (proj1 (entries_after_run threeFoo) 2%nat
           (mkCall 3 (mkOperation "foo" []) "P")); reflexivity.
Defined.

Lemma partial_numbering_plain_witness :
  {| res_name := "Bar"; idlId := "idl-def-bar-partial-2" |}
  = resolvedPartial (mkContainer "dictionary" "Bar" true) "" 2.
Proof.
  apply (partial_numbering_plain twoPartialBar "Bar" 1
           (mkCall 2 (mkContainer "dictionary" "Bar" true) "")).
  - apply (bool_decide_unpack _). reflexivity.
  - reflexivity.
  - reflexivity.
  - reflexivity.
  - reflexivity.
Defined.

End ResolverMore.

(** ** More about the definition linker and the render rules *)

Module LinkerMore.
Import JS WebIDL Markup ResolverFacts.

(** A name with a definition in the registry becomes a link to that
    definition's id; nothing is registered, and the definition is marked
    as exported exactly when the node is not partial. *)
Theorem defineIdlName_existing findDfn m escaped ref data parent id :
  let resolved := (getNameAndId m ref data (parentNameOf parent)).1 in
  let out := defineIdlName findDfn m escaped ref data parent in
  findDfn data (res_name resolved) (parentNameOf parent) = Some id ->
  out.1.1 = InternalLink (parentNameOf parent) (getDfnType (type data))
              ("#" +:+ id) escaped
  /\ List.filter isRegisterDefinition out.1.2 = []
  /\ (MarkExported (ExistingDfn id) (getDfnType (type data)) ∈ out.1.2
      <-> partial data = false).
Proof.
  intros resolved out Hid. subst resolved out. unfold defineIdlName.
  destruct (getNameAndId m ref data (parentNameOf parent)) as [r m'].
  simpl in *. rewrite Hid.
  destruct (partial data); simpl; repeat split; try done.
  - intros H. repeat (apply elem_of_cons in H as [H|H]; [discriminate H|]).
    by apply elem_of_nil in H.
  - intros _. apply elem_of_cons. by left.
Qed.

Lemma defineIdlName_existing_witness :
  (defineIdlName (fun _ _ _ => Some "dom-baz") newIDLNameMap "Baz" 1
     interfaceBaz None).1.1
  = InternalLink "" "interface" "#dom-baz" "Baz".
Proof.
  exact (proj1 (defineIdlName_existing (fun _ _ _ => Some "dom-baz")
                  newIDLNameMap "Baz" 1 interfaceBaz None "dom-baz" eq_refl)).
Defined.

(** [defineIdlName] calls [registerDefinition] at most once, and it does
    exactly when the registry has no definition, the node is not the
    default [toJSON] and the node is not partial. *)
Theorem defineIdlName_registers_iff findDfn m escaped ref data parent :
  let resolved := (getNameAndId m ref data (parentNameOf parent)).1 in
  let out := defineIdlName findDfn m escaped ref data parent in
  (length (List.filter isRegisterDefinition out.1.2) <= 1)%nat
  /\ (length (List.filter isRegisterDefinition out.1.2) = 1%nat
      <-> findDfn data (res_name resolved) (parentNameOf parent) = None
          /\ isDefaultJSON data = false /\ partial data = false).
Proof.
  intros resolved out. subst resolved out. unfold defineIdlName.
  destruct (getNameAndId m ref data (parentNameOf parent)) as [r m'].
  simpl.
  destruct (findDfn data (res_name r) (parentNameOf parent)) as [id|].
  { destruct (partial data); simpl; (split; [lia|]); split;
      [discriminate | by intros [? _] | discriminate | by intros [? _]]. }
  destruct (isDefaultJSON data).
  { simpl. split; [lia|]. split; [discriminate | by intros (_ & ? & _)]. }
  destruct (partial data); simpl.
  - rewrite andb_false_r. simpl. split; [lia|].
    split; [discriminate | by intros (_ & _ & ?)].
  - split; [lia|]. done.
Qed.

Lemma defineIdlName_state findDfn m escaped ref data parent :
  (defineIdlName findDfn m escaped ref data parent).2
  = (getNameAndId m ref data (parentNameOf parent)).2.
Proof.
  unfold defineIdlName.
  destruct (getNameAndId m ref data (parentNameOf parent)) as [r m'].
  simpl.
  destruct (findDfn data (res_name r) (parentNameOf parent)); [done|].
  destruct (isDefaultJSON data); [done|].
  destruct (partial data); simpl; [|done].
  by rewrite andb_false_r.
Qed.

(** The name rule and the definition rule agree on a node: once
    [defineIdlName] has handled the node's name, the [definition] rule
    (for a type that has a class name and is neither [includes] nor
    [enum-value]) puts on the span the id and title of the identity under
    which the name was looked up, whatever parent it is given, and leaves
    every counter as it is. *)
Theorem definition_after_name findDfn m escaped ref data parent parent' cls :
  let linked := defineIdlName findDfn m escaped ref data parent in
  let resolved := (getNameAndId m ref data (parentNameOf parent)).1 in
  getIdlDefinitionClassName data = Some cls ->
  String.eqb (type data) "includes" || String.eqb (type data) "enum-value" = false ->
  definition linked.2 ref data parent'
  = Some (TitledSpan cls (idlId resolved) (res_name resolved), linked.2).
Proof.
  intros linked resolved Hcls Hkind. subst linked resolved.
  unfold definition. rewrite Hcls, Hkind, defineIdlName_state.
  by rewrite (getNameAndId_known _ _ _ _ _ (getNameAndId_cached m ref data _)).
Qed.

Lemma definition_after_name_witness :
  definition (defineIdlName emptyRegistry newIDLNameMap "Baz" 1
                partialInterfaceBaz None).2 1 partialInterfaceBaz None
  = Some (TitledSpan "idlInterface" "idl-def-baz-partial-1" "Baz",
          (defineIdlName emptyRegistry newIDLNameMap "Baz" 1
             partialInterfaceBaz None).2).
Proof.
  exact (definition_after_name emptyRegistry newIDLNameMap "Baz" 1
           partialInterfaceBaz None None "idlInterface" eq_refl eq_refl).
Defined.

(** The [reference] rule cites HTML for [Window] and, inside [Exposed],
    for the three worker interfaces, and for nothing else; and it leaves
    the reference to the document's own IDL ([_IDL_]) exactly when it
    attaches neither a citation nor a lookup term. *)
Theorem reference_citations u c :
  (dataCite (reference u c) = Some "HTML"
   <-> u = "Window"
       \/ (inExposed c = true
           /\ (u = "Worker" \/ u = "DedicatedWorker" \/ u = "SharedWorker")))
  /\ (xrefType (reference u c) = "_IDL_"
      <-> dataCite (reference u c) = None /\ dataLt (reference u c) = None).
Proof.
  unfold reference.
  destruct (String.eqb_spec u "Window") as [->|HW].
  { simpl. split; [split; [by left|done] | split; [done | by intros [? _]]]. }
  destruct (String.eqb_spec u "object") as [->|HO].
  { simpl. split; split; try done.
    - intros [?|[_ [?|[?|?]]]]; done.
    - by intros [? _]. }
  destruct (includesString "Worker" u && inExposed c) eqn:E.
  - apply andb_true_iff in E as [Hinc Hexp]. simpl.
    split; [|split; [done | by intros [_ ?]]].
    rewrite !orb_false_r.
    destruct (String.eqb_spec u "Worker") as [->|H1];
      [split; [intros _; right; auto | done]|].
    destruct (String.eqb_spec u "DedicatedWorker") as [->|H2];
      [split; [intros _; right; auto | done]|].
    destruct (String.eqb_spec u "SharedWorker") as [->|H3];
      [split; [intros _; right; auto | done]|].
    simpl. split; [done|]. intros [?|[_ [?|[?|?]]]]; done.
  - simpl. split; [|done]. split; [done|].
    intros [?|[Hexp Hu]]; [done|]. rewrite Hexp, andb_true_r in E.
    destruct Hu as [-> | [-> | ->]]; discriminate E.
Qed.

End LinkerMore.

(** ** Citation defaulting *)

Module CiteFacts.
Import JS Markup.

Lemma splitSpacesFrom_nonempty s : forall b, splitSpacesFrom b s <> [].
Proof.
  induction s as [|c s IH]; intros b; [done|]. simpl.
  destruct (isSpace c).
  - destruct b; [apply IH | done].
  - by destruct (splitSpacesFrom false s).
Qed.

Lemma testWebidl_joined p ps : testWebidl (joinSpace ("WebIDL" :: p :: ps)) = true.
Proof. reflexivity. Qed.

(** After the defaulting the citation list names WebIDL as a word of its
    own, and the defaulting is idempotent: applied to its own result it
    changes nothing. *)
Theorem normalizeCite_names_WebIDL cite :
  testWebidl (normalizeCite cite) = true
  /\ normalizeCite (Some (normalizeCite cite)) = normalizeCite cite.
Proof.
  assert (H : testWebidl (normalizeCite cite) = true).
  { unfold normalizeCite.
    set (c := match cite with
              | None => "WebIDL"
              | Some c => if String.eqb c "" then "WebIDL" else c
              end).
    destruct (testWebidl c) eqn:E; simpl; [done|].
    pose proof (splitSpacesFrom_nonempty (trim c) false) as Hne.
    unfold splitSpaces. destruct (splitSpacesFrom false (trim c)) as [|p ps]; [done|].
    apply testWebidl_joined. }
  split; [done|].
  revert H. generalize (normalizeCite cite). intros r Hr.
  unfold normalizeCite.
  destruct (String.eqb_spec r "") as [->|_]; [discriminate Hr|].
  by rewrite Hr.
Qed.

End CiteFacts.

(** ** Collecting the occurrences and building the query *)

Module XrefQueryFacts.
Import JS Xref XrefQuery.

Lemma mapGet_mapSet_eq {A} k (v : A) m : mapGet k (mapSet k v m) = Some v.
Proof.
  induction m as [|[k' v'] m IH]; simpl.
  - by rewrite String.eqb_refl.
  - destruct (String.eqb_spec k k') as [->|Hne]; simpl.
    + by rewrite String.eqb_refl.
    + by apply String.eqb_neq in Hne as ->.
Qed.

Lemma mapGet_mapSet_ne {A} k k' (v : A) m :
  k <> k' -> mapGet k' (mapSet k v m) = mapGet k' m.
Proof.
  intros Hne. induction m as [|[k0 v0] m IH]; simpl.
  - assert (k' <> k) as ->%String.eqb_neq by congruence. done.
  - destruct (String.eqb_spec k k0) as [->|Hk]; simpl.
    + assert (k' <> k0) as ->%String.eqb_neq by congruence. done.
    + by rewrite IH.
Qed.


Lemma getRefMap_snoc norm elems e :
  getRefMap norm (elems ++ [e]) = addSite norm (getRefMap norm elems) e.
Proof. unfold getRefMap. by rewrite fold_left_app. Qed.

Lemma createXrefQuery_cons t refs m :
  createXrefQuery ((t, refs) :: m)
  = (map (fun r => {| k_term := t; k_specs := specs r; k_types := types r |}) refs
     ++ createXrefQuery m)%list.
Proof. reflexivity. Qed.

Lemma createXrefQuery_mapSet t x m :
  createXrefQuery (mapSet t (default [] (mapGet t m) ++ [x])%list m)
  ≡ₚ (createXrefQuery m
      ++ [{| k_term := t; k_specs := specs x; k_types := types x |}])%list.
Proof.
  induction m as [|[k v] m IH]; simpl mapSet; simpl mapGet.
  - done.
  - destruct (String.eqb_spec t k) as [->|Hne]; simpl default.
    + rewrite !createXrefQuery_cons, map_app. simpl.
      rewrite <- !app_assoc. apply Permutation_app_head, Permutation_app_comm.
    + rewrite !createXrefQuery_cons, IH. by rewrite app_assoc.
Qed.

Lemma getRefMap_is_Some norm elems t :
  is_Some (mapGet t (getRefMap norm elems)) <-> t ∈ map (siteTerm norm) elems.
Proof.
  induction elems as [|e elems IH] using rev_ind.
  { simpl. split; [by intros [? ?] | by intros ?%elem_of_nil]. }
  rewrite getRefMap_snoc, map_app, elem_of_app. unfold addSite. simpl.
  rewrite list_elem_of_singleton, <- IH.
  destruct (decide (siteTerm norm e = t)) as [<-|Hne].
  - rewrite mapGet_mapSet_eq. split; [by right | by eexists].
  - rewrite mapGet_mapSet_ne by done. split; [by left | by intros [?|?]].
Qed.

Lemma createXrefQuery_terms norm elems :
  k_term <$> createXrefQuery (getRefMap norm elems) ≡ₚ map (siteTerm norm) elems.
Proof.
  induction elems as [|e elems IH] using rev_ind; [done|].
  rewrite getRefMap_snoc, map_app. unfold addSite.
  rewrite createXrefQuery_mapSet, fmap_app, IH. done.
Qed.

(** [getRefMap] groups the occurrences by normalized term: under a term
    the [Map] holds the entries of exactly the sites with that term, in
    document order, and it has no key for a term that no site has. *)
Theorem getRefMap_groups norm elems t :
  mapGet t (getRefMap norm elems)
  = match List.filter (fun e => String.eqb (siteTerm norm e) t) elems with
    | [] => None
    | l => Some (map siteEntry l)
    end.
Proof.
  induction elems as [|e elems IH] using rev_ind; [done|].
  rewrite getRefMap_snoc, List.filter_app. unfold addSite. simpl.
  destruct (String.eqb_spec (siteTerm norm e) t) as [->|Hne].
  - rewrite mapGet_mapSet_eq, IH.
    destruct (List.filter _ elems) as [|x l]; simpl; [done|].
    by rewrite map_app.
  - rewrite mapGet_mapSet_ne by done. rewrite IH, app_nil_r. done.
Qed.

(** The query has one key per occurrence, with that occurrence's term and
    [specs] and with empty [types]: occurrences are grouped by term, and
    equal keys are not merged. *)
Theorem query_one_key_per_site norm elems :
  createXrefQuery (getRefMap norm elems)
  ≡ₚ map (fun e => {| k_term := siteTerm norm e;
                      k_specs := specs (siteEntry e);
                      k_types := [] |}) elems.
Proof.
  induction elems as [|e elems IH] using rev_ind; [done|].
  rewrite getRefMap_snoc, map_app. unfold addSite.
  rewrite createXrefQuery_mapSet, IH. done.
Qed.

End XrefQueryFacts.

(** ** More about the annotation of occurrences *)

Module XrefMore.
Import JS Xref XrefQuery XrefFacts XrefQueryFacts.

Lemma split_nonempty c s : split c s <> [].
Proof.
  induction s as [|a s IH]; [done|]. simpl.
  destruct (Ascii.eqb a c); [done|]. by destruct (split c s).
Qed.

Lemma existsb_eqb_true x (l : list string) :
  existsb (String.eqb x) l = true <-> x ∈ l.
Proof.
  rewrite existsb_exists, list_elem_of_In. split.
  - by intros (y & Hy & ->%String.eqb_eq).
  - intros Hx. exists x. by rewrite String.eqb_refl.
Qed.


Lemma disambiguate_single_accepts c e s :
  (disambiguate (Some [c]) e s).1 = (if acceptsSpec c e then Some c else None).
Proof.
  unfold disambiguate, acceptsSpec.
  destruct (specs e) as [|x l]; [done|]. simpl.
  by destruct (String.eqb (spec c) x || existsb (String.eqb (spec c)) l).
Qed.

(** [getRefMap] and [disambiguate] together: the occurrence read from a
    site lets a single candidate through exactly when the site has no
    [data-cite] in reach, or the candidate's spec is one of the pieces of
    that [data-cite] cut at single spaces.  Under an empty [data-cite]
    only a candidate with an empty spec passes. *)
Theorem site_accepts_single_candidate c e s :
  (disambiguate (Some [c]) (siteEntry e) s).1 = Some c
  <-> match site_cite e with
      | None => True
      | Some cite => spec c ∈ split " " cite
      end.
Proof.
  rewrite disambiguate_single_accepts. unfold acceptsSpec, siteEntry. simpl.
  destruct (site_cite e) as [cite|]; [|done].
  pose proof (split_nonempty " " cite) as Hne.
  destruct (split " " cite) as [|x l] eqn:E; [done|].
  change (length (x :: l) =? 0)%nat with false. rewrite orb_false_l.
  rewrite <- existsb_eqb_true.
  by destruct (existsb (String.eqb (spec c)) (x :: l)).
Qed.

(** *** When nothing is thrown *)








(** *** A response without candidates *)

Lemma forEachEntry_no_candidates data es s :
  data = None \/ data = Some [] -> forEachEntry data es s = Completed s.
Proof.
  intros Hd. induction es as [|e es IH]; [done|]. simpl.
  by destruct Hd as [-> | ->]; simpl; rewrite ?IH.
Qed.

(** A response that has no candidate for any of its terms, all of them
    keys of [conf.xrefs], leaves everything as it was: no element is
    marked or annotated, no reference is added, nothing is logged. *)
Theorem addDataCiteToTerms_no_candidates results xrefs s :
  (forall t data, (t, data) ∈ results ->
     is_Some (xrefs !! t) /\ (data = None \/ data = Some [])) ->
  addDataCiteToTerms results xrefs s = Completed s.
Proof.
  induction results as [|[t data] results IH]; intros H; [done|]. simpl.
  destruct (H t data) as [[es ->] Hd]; [apply elem_of_cons; by left|].
  rewrite forEachEntry_no_candidates by done.
  apply IH. intros t' d' Hin. apply H, elem_of_cons. by right.
Qed.

Lemma addDataCiteToTerms_no_candidates_witness :
  addDataCiteToTerms [("event", Some [])] {[ "event" := [occurrence ["dom"]] ]}
    oneElement
  = Completed oneElement.
Proof.
  apply addDataCiteToTerms_no_candidates.
  intros t data Hin. apply list_elem_of_singleton in Hin. injection Hin as -> ->.
  split; [by eexists | by right].
Defined.

(** *** Only additions, and only on the occurrences *)

Lemma onlyAdds_refl s : onlyAdds s s.
Proof. by repeat split. Qed.

Lemma onlyAdds_trans s1 s2 s3 : onlyAdds s1 s2 -> onlyAdds s2 s3 -> onlyAdds s1 s3.
Proof.
  intros (N1 & I1 & C1 & K1) (N2 & I2 & C2 & K2).
  repeat split; try (by etrans). intros r. etrans; [apply K1 | apply K2].
Qed.

Lemma onlyAdds_consoleWarn msg r s : onlyAdds s (consoleWarn msg r s).
Proof. repeat split; try done. simpl. by apply prefix_app_r. Qed.

Lemma onlyAdds_addNormative c s : onlyAdds s (addNormative c s).
Proof. repeat split; try done. simpl. set_solver. Qed.

Lemma onlyAdds_addInformative c s : onlyAdds s (addInformative c s).
Proof. repeat split; try done. simpl. set_solver. Qed.

Lemma onlyAdds_updateElem r f s :
  (forall e, classList e ⊆ classList (f e)) -> onlyAdds s (updateElem r f s).
Proof.
  intros Hf. repeat split; try done. intros r'. simpl.
  destruct (decide (r = r')) as [->|Hne].
  - rewrite lookup_total_insert_eq. apply Hf.
  - by rewrite lookup_total_insert_ne.
Qed.

Lemma classListAdd_subseteq c e : classList e ⊆ classList (classListAdd c e).
Proof.
  unfold classListAdd. simpl. destruct (existsb _ _); [done|].
  by apply list_subseteq_app_l.
Qed.

Lemma annotateEntry_onlyAdds data e s : onlyAdds s (stateOf (annotateEntry data e s)).
Proof.
  unfold annotateEntry.
  assert (Hd : onlyAdds s (disambiguate data e s).2).
  { unfold disambiguate. destruct data as [[|c [|c2 cs]]|]; simpl;
      try apply onlyAdds_refl.
    - destruct (_ && _); simpl; [|apply onlyAdds_refl].
      eapply onlyAdds_trans; [|apply onlyAdds_consoleWarn].
      apply onlyAdds_updateElem, classListAdd_subseteq.
    - eapply onlyAdds_trans; [apply onlyAdds_consoleWarn|].
      apply onlyAdds_updateElem, classListAdd_subseteq. }
  destruct (disambiguate data e s) as [[r|] s1]; simpl in *; [|done].
  eapply onlyAdds_trans; [exact Hd|].
  set (s2 := if normative r then _ else _).
  assert (H2 : onlyAdds s1 s2).
  { subst s2. destruct (normative r); [apply onlyAdds_addNormative|].
    destruct (inInformative _);
      [apply onlyAdds_addInformative | apply onlyAdds_consoleWarn]. }
  destruct (if includes "/" (uri r) then _ else _); simpl; [|done].
  eapply onlyAdds_trans; [exact H2|]. by apply onlyAdds_updateElem.
Qed.

Lemma annotateEntry_frame data e s r :
  r <> elem e -> dom (stateOf (annotateEntry data e s)) !! r = dom s !! r.
Proof.
  intros Hne. unfold annotateEntry.
  assert (Hd : dom (disambiguate data e s).2 !! r = dom s !! r).
  { unfold disambiguate. destruct data as [[|c [|c2 cs]]|]; simpl; try done.
    - destruct (_ && _); simpl; [|done]. by rewrite lookup_insert_ne.
    - by rewrite lookup_insert_ne. }
  destruct (disambiguate data e s) as [[c|] s1]; simpl in *; [|done].
  set (s2 := if normative c then _ else _).
  assert (H2 : dom s2 = dom s1).
  { subst s2. destruct (normative c); [done|]. by destruct (inInformative _). }
  destruct (if includes "/" (uri c) then _ else _); simpl.
  - rewrite lookup_insert_ne by done. by rewrite H2.
  - by rewrite H2.
Qed.

Lemma forEachEntry_onlyAdds data es : forall s,
  onlyAdds s (stateOf (forEachEntry data es s))
  /\ forall r, r ∉ elem <$> es ->
       dom (stateOf (forEachEntry data es s)) !! r = dom s !! r.
Proof.
  induction es as [|e es IH]; intros s; [split; [apply onlyAdds_refl|done]|].
  simpl.
  pose proof (annotateEntry_onlyAdds data e s) as Ha.
  pose proof (annotateEntry_frame data e s) as Hf.
  destruct (annotateEntry data e s) as [s'|err s']; simpl in *.
  - destruct (IH s') as [Hs Hr]. split; [by eapply onlyAdds_trans|].
    intros r [Hne Hnotin]%not_elem_of_cons. rewrite Hr by done. by apply Hf.
  - split; [done|]. intros r [Hne _]%not_elem_of_cons. by apply Hf.
Qed.

(** Whether it returns or throws, [addDataCiteToTerms] only adds: the
    two reference sets, the console and every class list keep what they
    had, and an element that is the element of no entry of [conf.xrefs]
    is left exactly as it was. *)
Theorem addDataCiteToTerms_only_adds results xrefs s :
  onlyAdds s (stateOf (addDataCiteToTerms results xrefs s))
  /\ forall r,
       (forall t es e, xrefs !! t = Some es -> e ∈ es -> elem e <> r) ->
       dom (stateOf (addDataCiteToTerms results xrefs s)) !! r = dom s !! r.
Proof.
  revert s. induction results as [|[t data] results IH]; intros s;
    [split; [apply onlyAdds_refl|done]|].
  simpl. destruct (xrefs !! t) as [es|] eqn:E;
    [|split; [apply onlyAdds_refl|done]].
  destruct (forEachEntry_onlyAdds data es s) as [Ha Hf].
  assert (Hout : forall r,
            (forall t es e, xrefs !! t = Some es -> e ∈ es -> elem e <> r) ->
            r ∉ elem <$> es).
  { intros r Hr [e [-> He]]%list_elem_of_fmap. by apply (Hr t es e). }
  destruct (forEachEntry data es s) as [s'|err s']; simpl in *.
  - destruct (IH s') as [Hs Hr]. split; [by eapply onlyAdds_trans|].
    intros r Hno. rewrite Hr by done. by apply Hf, Hout.
  - split; [done|]. intros r Hno. by apply Hf, Hout.
Qed.

Lemma addDataCiteToTerms_only_adds_witness :
  dom (stateOf (addDataCiteToTerms [("event", Some [domEvent])]
                  {[ "event" := [occurrence []] ]} oneElement)) !! 2%nat
  = dom oneElement !! 2%nat.
Proof.
  apply (proj2 (addDataCiteToTerms_only_adds [("event", Some [domEvent])]
                  {[ "event" := [occurrence []] ]} oneElement)).
  intros t es e [_ <-]%lookup_singleton_Some ->%list_elem_of_singleton.
  discriminate.
Defined.

(** *** The occurrences of one term *)

Lemma lookup_total_eq (m1 m2 : gmap nat element) r :
  m1 !! r = m2 !! r -> m1 !!! r = m2 !!! r.
Proof. intros H. by rewrite !lookup_total_alt, H. Qed.

Lemma annotateEntry_single c e s :
  includes "/" (uri c) = false ->
  exists s1,
    annotateEntry (Some [c]) e s = Completed s1
    /\ if acceptsSpec c e
       then dataset (dom s1 !!! elem e) !! "cite" = Some (spec c)
            /\ classList (dom s1 !!! elem e) = classList (dom s !!! elem e)
       else offending ∈ classList (dom s1 !!! elem e)
            /\ dataset (dom s1 !!! elem e) = dataset (dom s !!! elem e).
Proof.
  intros Hslash. unfold annotateEntry, disambiguate, acceptsSpec.
  destruct (length (specs e) =? 0)%nat; simpl.
  - rewrite Hslash. eexists. split; [done|].
    rewrite updateElem_lookup. unfold assignCite. simpl.
    rewrite lookup_insert_ne by done. rewrite lookup_insert_ne by done.
    rewrite lookup_insert_eq. split; [done|].
    destruct (normative c); [done|]. by destruct (inInformative _).
  - destruct (existsb (String.eqb (spec c)) (specs e)); simpl.
    + rewrite Hslash. eexists. split; [done|].
      rewrite updateElem_lookup. unfold assignCite. simpl.
      rewrite lookup_insert_ne by done. rewrite lookup_insert_ne by done.
      rewrite lookup_insert_eq. split; [done|].
      destruct (normative c); [done|]. by destruct (inInformative _).
    + eexists. split; [done|]. simpl. rewrite lookup_total_insert_eq.
      split; [apply classListAdd_elem | done].
Qed.

(** With a single candidate for a term (its uri without [/]), every
    occurrence of the term, each on its own element, is judged by its own
    [specs] alone: it is annotated with the candidate's spec and gets no
    class when it has no [specs] or they contain that spec, and otherwise
    it is marked as offending and keeps its metadata; no occurrence's
    outcome depends on the others. *)
Theorem occurrences_judged_independently c es : forall s,
  includes "/" (uri c) = false ->
  NoDup (elem <$> es) ->
  exists s',
    forEachEntry (Some [c]) es s = Completed s'
    /\ forall e, e ∈ es ->
         if acceptsSpec c e
         then dataset (dom s' !!! elem e) !! "cite" = Some (spec c)
              /\ classList (dom s' !!! elem e) = classList (dom s !!! elem e)
         else offending ∈ classList (dom s' !!! elem e)
              /\ dataset (dom s' !!! elem e) = dataset (dom s !!! elem e).
Proof.
  induction es as [|e es IH]; intros s Hslash Hnd.
  { exists s. split; [done|]. by intros e Hin%elem_of_nil. }
  rewrite fmap_cons in Hnd. apply NoDup_cons in Hnd as [Hnotin Hnd].
  destruct (annotateEntry_single c e s Hslash) as (s1 & Hs1 & He).
  destruct (IH s1 Hslash Hnd) as (s' & Hs' & Hes).
  pose proof (annotateEntry_frame (Some [c]) e s) as Hf1. rewrite Hs1 in Hf1.
  destruct (forEachEntry_onlyAdds (Some [c]) es s1) as [_ Hf2].
  rewrite Hs' in Hf2. simpl in Hf1, Hf2.
  exists s'. simpl. rewrite Hs1. split; [done|].
  intros e' [->|Hin]%elem_of_cons.
  - by rewrite (lookup_total_eq _ _ _ (Hf2 _ Hnotin)).
  - assert (Hne : elem e' <> elem e).
    { intros Heq. apply Hnotin. rewrite <- Heq. by apply list_elem_of_fmap_2. }
    specialize (Hes e' Hin).
    by rewrite (lookup_total_eq _ _ _ (Hf1 _ Hne)) in Hes.
Qed.

Lemma occurrences_judged_independently_witness :
  exists s',
    forEachEntry (Some [htmlEvent])
      [ {| elem := 1; specs := ["html"]; types := [] |};
        {| elem := 2; specs := ["dom"]; types := [] |} ] oneElement
    = Completed s'
    /\ dataset (dom s' !!! 1%nat) !! "cite" = Some "html"
    /\ offending ∈ classList (dom s' !!! 2%nat).
Proof.
  destruct (occurrences_judged_independently htmlEvent
              [ {| elem := 1; specs := ["html"]; types := [] |};
                {| elem := 2; specs := ["dom"]; types := [] |} ] oneElement
              eq_refl) as (s' & Hs' & H).
  - apply (bool_decide_unpack _). reflexivity.
  - exists s'. split; [exact Hs'|]. split.
    + refine (proj1 (H {| elem := 1; specs := ["html"]; types := [] |} _)).
      apply elem_of_cons. by left.
    + refine (proj1 (H {| elem := 2; specs := ["dom"]; types := [] |} _)).
      apply elem_of_cons. right. apply elem_of_cons. by left.
Defined.

End XrefMore.

(** ** The simulated lookup *)

Module ShepherdFacts.
Import JS Xref XrefQuery XrefQueryFacts.

Lemma mapGet_mapSet {A} k k' (v : A) m :
  mapGet k' (mapSet k v m) = if decide (k = k') then Some v else mapGet k' m.
Proof.
  destruct (decide (k = k')) as [->|Hne].
  - apply mapGet_mapSet_eq.
  - by apply mapGet_mapSet_ne.
Qed.

Lemma ensureResult_other r term t :
  t <> term -> mapGet t (ensureResult r term) = mapGet t r.
Proof.
  intros Hne. unfold ensureResult.
  destruct (mapGet term r) as [v|];
    [by rewrite mapGet_mapSet_ne|].
  destruct (inherited term); [|by rewrite mapGet_mapSet_ne].
  destruct (String.eqb term "__proto__"); [done|].
  by rewrite mapGet_mapSet_ne.
Qed.

Lemma ensureResult_plain r term :
  plainKey term ->
  mapGet term (ensureResult r term) = Some (default (Items []) (mapGet term r)).
Proof.
  unfold ensureResult, plainKey. intros ->.
  destruct (mapGet term r) as [v|]; simpl; apply mapGet_mapSet_eq.
Qed.

(** An array found after [result[term] = result[term] || []] was there
    before, or is the new empty one. *)
Lemma ensureResult_Items r term t l :
  mapGet t (ensureResult r term) = Some (Items l) ->
  mapGet t r = Some (Items l) \/ l = [].
Proof.
  destruct (decide (t = term)) as [->|Hne];
    [|rewrite ensureResult_other by done; by left].
  unfold ensureResult.
  destruct (mapGet term r) as [v|] eqn:E.
  - rewrite mapGet_mapSet_eq. intros [= ->]. by left.
  - destruct (inherited term).
    + destruct (String.eqb term "__proto__"); [by rewrite E|].
      by rewrite mapGet_mapSet_eq.
    + rewrite mapGet_mapSet_eq. intros [= <-]. by right.
Qed.

Section Collected.

Variable data : gmap string (list candidate).

Lemma collected_weaken (seen seen' : queryKey -> Prop) r :
  (forall k, seen k -> seen' k) -> collected data seen r -> collected data seen' r.
Proof.
  intros Hsub Hc t l Ht. destruct (Hc t l Ht) as [Hnd Hl]. split; [done|].
  intros c Hin. destruct (Hl c Hin) as [Hd (key & Hk & Hterm & Hf)].
  split; [done|]. exists key. auto.
Qed.

Lemma collected_ensureResult seen r term :
  collected data seen r -> collected data seen (ensureResult r term).
Proof.
  intros Hc t l Ht. apply ensureResult_Items in Ht as [Ht| ->]; [by apply Hc|].
  split; [constructor|]. by intros c Hin%elem_of_nil.
Qed.

Lemma existsb_uri_false (item : candidate) l :
  existsb (fun t => String.eqb (uri t) (uri item)) l = false ->
  uri item ∉ uri <$> l.
Proof.
  intros Hex [c [Hu Hin]]%list_elem_of_fmap.
  assert (existsb (fun t => String.eqb (uri t) (uri item)) l = true); [|congruence].
  apply existsb_exists. exists c. split; [by apply list_elem_of_In|].
  rewrite Hu. apply String.eqb_refl.
Qed.

Lemma collected_offerItem seen key items r item r' :
  collected data seen r ->
  seen key -> data !! k_term key = Some items -> item ∈ items ->
  offerItem key (k_term key) r item = Some r' ->
  collected data seen r'.
Proof.
  intros Hc Hseen Hdata Hitem. unfold offerItem.
  destruct (filterFn item key) eqn:Hf; [|by intros [= <-]].
  destruct (mapGet (k_term key) r) as [[l|]|] eqn:E; try done.
  destruct (existsb _ l) eqn:Hex; intros [= <-]; [done|].
  intros t l'. rewrite mapGet_mapSet.
  destruct (decide (k_term key = t)) as [<-|Hne]; [|by apply Hc].
  intros [= <-]. destruct (Hc _ _ E) as [Hnd Hl]. split.
  - rewrite fmap_app. apply NoDup_app. split; [done|]. split.
    + intros u Hu ->%list_elem_of_singleton.
      by apply (existsb_uri_false item l).
    + apply NoDup_singleton.
  - intros c [Hin| ->%list_elem_of_singleton]%elem_of_app; [by apply Hl|].
    split; [by exists items | by exists key].
Qed.

Lemma collected_offerItems seen key items : forall rest r r',
  collected data seen r ->
  seen key -> data !! k_term key = Some items -> rest ⊆ items ->
  offerItems key (k_term key) rest r = Some r' ->
  collected data seen r'.
Proof.
  induction rest as [|item rest IH]; intros r r' Hc Hseen Hdata Hsub;
    [by intros [= <-]|].
  simpl. destruct (offerItem key (k_term key) r item) as [r1|] eqn:E; [|done].
  apply IH; try done.
  - eapply collected_offerItem; try done. apply Hsub, elem_of_cons. by left.
  - intros x Hx. apply Hsub, elem_of_cons. by right.
Qed.

Lemma collected_lookupKey (seen : queryKey -> Prop) r key r' :
  collected data seen r -> seen key ->
  lookupKey data r key = Some r' ->
  collected data seen r'.
Proof.
  intros Hc Hseen. unfold lookupKey.
  destruct (_ || _); [|intros [= <-]; by apply collected_ensureResult].
  destruct (data !! k_term key) as [items|] eqn:E; [|done].
  apply (collected_offerItems seen key items); try done.
  by apply collected_ensureResult.
Qed.

Lemma collected_simulateFrom (seen : queryKey -> Prop) keys : forall r r',
  collected data seen r ->
  (forall k, k ∈ keys -> seen k) ->
  simulateFrom data keys r = Some r' ->
  collected data seen r'.
Proof.
  induction keys as [|key keys IH]; intros r r' Hc Hseen; [by intros [= <-]|].
  simpl. destruct (lookupKey data r key) as [r1|] eqn:E; [|done].
  apply IH.
  - eapply collected_lookupKey; try done. apply Hseen, elem_of_cons. by left.
  - intros k Hk. apply Hseen, elem_of_cons. by right.
Qed.

End Collected.

(** When [simulateShepherd] returns, the items it has collected for a
    term have pairwise different uris, each is an item of the data of
    that term, and each passes [filterFn] for some key of the query with
    that term. *)
Theorem simulateShepherd_collects data keys result t l :
  simulateShepherd data keys = Some result ->
  mapGet t result = Some (Items l) ->
  NoDup (uri <$> l)
  /\ forall c, c ∈ l ->
       (exists items, data !! t = Some items /\ c ∈ items)
       /\ exists key, key ∈ keys /\ k_term key = t /\ filterFn c key = true.
Proof.
  intros Hsim Ht.
  apply (collected_simulateFrom data (fun k => k ∈ keys) keys [] result);
    [by intros ? ? ? | done | exact Hsim | exact Ht].
Qed.

Lemma simulateShepherd_collects_witness :
  NoDup (uri <$> [htmlEvent]).
Proof.
  refine (proj1 (simulateShepherd_collects
                   {[ "event" := [htmlEvent; htmlEvent] ]}
                   [ {| k_term := "event"; k_specs := ["html"]; k_types := [] |} ]
                   [("event", Items [htmlEvent])] "event" [htmlEvent] _ _));
    reflexivity.
Defined.

(** *** Terms that are, or are not, names of inherited properties *)

Lemma offerItems_plain key term items : forall r l,
  mapGet term r = Some (Items l) ->
  (forall t v, mapGet t r = Some v -> exists l', v = Items l') ->
  exists r' l',
    offerItems key term items r = Some r'
    /\ mapGet term r' = Some (Items l')
    /\ (forall t, t <> term -> mapGet t r' = mapGet t r).
Proof.
  induction items as [|item items IH]; intros r l Hterm Hall.
  { exists r, l. by repeat split. }
  simpl. unfold offerItem. rewrite Hterm.
  destruct (filterFn item key); [|by apply (IH r l)].
  destruct (existsb _ l); [by apply (IH r l)|].
  destruct (IH (mapSet term (Items (l ++ [item])) r) (l ++ [item])%list)
    as (r' & l' & Hr' & Hl' & Hother).
  - apply mapGet_mapSet_eq.
  - intros t v. rewrite mapGet_mapSet. destruct (decide _); [|by apply Hall].
    intros [= <-]. by eexists.
  - exists r', l'. repeat split; try done.
    intros t Hne. rewrite Hother by done. by rewrite mapGet_mapSet_ne.
Qed.

Lemma lookupKey_plain data r key :
  plainKey (k_term key) ->
  (forall t v, mapGet t r = Some v -> exists l, v = Items l) ->
  exists r',
    lookupKey data r key = Some r'
    /\ (forall t v, mapGet t r' = Some v -> exists l, v = Items l)
    /\ (forall t, is_Some (mapGet t r') <-> is_Some (mapGet t r) \/ t = k_term key).
Proof.
  intros Hp Hall. unfold lookupKey.
  pose proof (ensureResult_plain r _ Hp) as Hterm.
  assert (Hl : exists l, mapGet (k_term key) (ensureResult r (k_term key))
                         = Some (Items l)).
  { rewrite Hterm. destruct (mapGet (k_term key) r) as [v|] eqn:E; simpl.
    - destruct (Hall _ _ E) as [l ->]. by eexists.
    - by eexists. }
  destruct Hl as [l Hl].
  assert (Hall1 : forall t v, mapGet t (ensureResult r (k_term key)) = Some v ->
                              exists l, v = Items l).
  { intros t v. destruct (decide (t = k_term key)) as [->|Hne].
    - rewrite Hl. intros [= <-]. by eexists.
    - rewrite ensureResult_other by done. apply Hall. }
  assert (Hdom1 : forall t, is_Some (mapGet t (ensureResult r (k_term key)))
                            <-> is_Some (mapGet t r) \/ t = k_term key).
  { intros t. destruct (decide (t = k_term key)) as [->|Hne].
    - rewrite Hl. split; [by right | by eexists].
    - rewrite ensureResult_other by done. split; [by left | by intros [?|?]]. }
  unfold plainKey in Hp. rewrite Hp.
  destruct (data !! k_term key) as [items|] eqn:E; simpl.
  - destruct (offerItems_plain key (k_term key) items _ l Hl Hall1)
      as (r' & l' & -> & Hl' & Hother).
    exists r'. split; [done|]. split.
    + intros t v. destruct (decide (t = k_term key)) as [->|Hne].
      * rewrite Hl'. intros [= <-]. by eexists.
      * rewrite Hother by done. apply Hall1.
    + intros t. rewrite <- Hdom1. destruct (decide (t = k_term key)) as [->|Hne].
      * rewrite Hl', Hl. split; by eexists.
      * by rewrite Hother.
  - by exists (ensureResult r (k_term key)).
Qed.

Lemma simulateFrom_plain data keys : forall r,
  Forall (fun k => plainKey (k_term k)) keys ->
  (forall t v, mapGet t r = Some v -> exists l, v = Items l) ->
  exists r',
    simulateFrom data keys r = Some r'
    /\ (forall t v, mapGet t r' = Some v -> exists l, v = Items l)
    /\ (forall t, is_Some (mapGet t r')
                  <-> is_Some (mapGet t r) \/ t ∈ k_term <$> keys).
Proof.
  induction keys as [|key keys IH]; intros r Hplain Hall.
  { exists r. repeat split; try done; [by left|].
    by intros [?|?%elem_of_nil]. }
  apply Forall_cons in Hplain as [Hp Hplain].
  destruct (lookupKey_plain data r key Hp Hall) as (r1 & Hr1 & Hall1 & Hdom1).
  destruct (IH r1 Hplain Hall1) as (r' & Hr' & Hall' & Hdom').
  exists r'. simpl. rewrite Hr1. split; [done|]. split; [done|].
  intros t. rewrite Hdom', Hdom1, elem_of_cons. tauto.
Qed.

(** A query whose terms are no names of properties of [Object.prototype]
    is answered without an exception, and the answer has an array, maybe
    an empty one, for exactly the terms of the query. *)
Theorem simulateShepherd_plain_terms data keys :
  Forall (fun k => plainKey (k_term k)) keys ->
  exists result,
    simulateShepherd data keys = Some result
    /\ (forall t, is_Some (mapGet t result) <-> t ∈ k_term <$> keys)
    /\ (forall t v, mapGet t result = Some v -> exists l, v = Items l).
Proof.
  intros Hplain.
  destruct (simulateFrom_plain data keys [] Hplain) as (r & Hr & Hall & Hdom);
    [done|].
  exists r. split; [done|]. split; [|done].
  intros t. rewrite Hdom. simpl. split; [by intros [[? ?]|?] | by right].
Qed.

Lemma simulateShepherd_plain_terms_witness :
  exists result,
    simulateShepherd {[ "event" := [htmlEvent] ]}
      [ {| k_term := "event"; k_specs := []; k_types := [] |} ] = Some result.
Proof.
  destruct (simulateShepherd_plain_terms {[ "event" := [htmlEvent] ]}
              [ {| k_term := "event"; k_specs := []; k_types := [] |} ])
    as (result & Hr & _).
  - repeat constructor.
  - by exists result.
Defined.

Lemma simulateFrom_app data ks1 ks2 r :
  simulateFrom data (ks1 ++ ks2) r
  = match simulateFrom data ks1 r with
    | Some r1 => simulateFrom data ks2 r1
    | None => None
    end.
Proof.
  revert r. induction ks1 as [|k ks1 IH]; intros r; [done|]. simpl.
  by destruct (lookupKey data r k).
Qed.

(** A term that is the name of a property of [Object.prototype], such as
    [constructor] or [valueOf], and that the data does not define makes
    [simulateShepherd] throw: [term in data] is true through the
    prototype, and the inherited value cannot be iterated. *)
Theorem simulateShepherd_inherited_term data before key after :
  Forall (fun k => plainKey (k_term k)) before ->
  is_Some (inherited (k_term key)) ->
  data !! k_term key = None ->
  simulateShepherd data (before ++ key :: after) = None.
Proof.
  intros Hplain Hinh Hdata. unfold simulateShepherd.
  rewrite simulateFrom_app.
  destruct (simulateFrom_plain data before [] Hplain) as (r & -> & _); [done|].
  simpl. unfold lookupKey. rewrite Hdata.
  rewrite (bool_decide_eq_true_2 _ Hinh), orb_true_r. done.
Qed.

Lemma simulateShepherd_inherited_term_witness :
  simulateShepherd {[ "event" := [htmlEvent] ]}
    [ {| k_term := "event"; k_specs := []; k_types := [] |};
      {| k_term := "constructor"; k_specs := []; k_types := [] |} ]
  = None.
Proof.
  apply (simulateShepherd_inherited_term {[ "event" := [htmlEvent] ]}
           [ {| k_term := "event"; k_specs := []; k_types := [] |} ]
           {| k_term := "constructor"; k_specs := []; k_types := [] |} []).
  - repeat constructor.
  - by eexists.
  - reflexivity.
Defined.

(** *** The lookup behind [getRefMap] and [createXrefQuery] *)

(** For sites whose terms are no names of properties of
    [Object.prototype], the simulated lookup of the query built from
    [getRefMap] returns, and it answers exactly the terms that are keys
    of the [Map]: [addDataCiteToTerms] then finds [conf.xrefs.get(term)]
    for every term of the response. *)
Theorem lookup_answers_the_map norm data elems :
  Forall (fun e => plainKey (siteTerm norm e)) elems ->
  exists result,
    simulateShepherd data (createXrefQuery (getRefMap norm elems)) = Some result
    /\ forall t, is_Some (mapGet t result)
                 <-> is_Some (mapGet t (getRefMap norm elems)).
Proof.
  intros Hplain.
  pose proof (createXrefQuery_terms norm elems) as Hterms.
  set (keys := createXrefQuery (getRefMap norm elems)) in *.
  assert (Hkeys : Forall (fun k => plainKey (k_term k)) keys).
  { apply Forall_forall. intros k Hk.
    assert (k_term k ∈ map (siteTerm norm) elems) as (e & <- & Hin)%list_elem_of_In%in_map_iff.
    { rewrite <- Hterms. by apply list_elem_of_fmap_2. }
    rewrite Forall_forall in Hplain. by apply Hplain, list_elem_of_In. }
  destruct (simulateFrom_plain data keys [] Hkeys) as (r & Hr & _ & Hdom);
    [done|].
  exists r. split; [done|]. intros t.
  rewrite Hdom, getRefMap_is_Some, Hterms. simpl.
  split; [by intros [[? ?]|?] | by right].
Qed.

Lemma lookup_answers_the_map_witness :
  exists result,
    simulateShepherd {[ "widget" := [htmlEvent] ]}
      (createXrefQuery (getRefMap (fun t => t) widgetSites)) = Some result.
Proof.
  destruct (lookup_answers_the_map (fun t => t) {[ "widget" := [htmlEvent] ]}
              widgetSites) as (result & Hr & _).
  - repeat constructor.
  - by exists result.
Defined.

End ShepherdFacts.

(** ** Which nodes get different anchor ids *)

Module ResolverUnique.
Import JS JSFacts WebIDL Naming ResolverFacts ResolverMore.








(** Names with a [-] are not covered: the id of a member [c] of [a-b] is
    the id of a member [b-c] of [a]. *)
Example hyphenated_members_share_anchor :
  idlId <$> (resolveAll newIDLNameMap hyphenatedMembers).1
  = ["idl-def-a-b-c"; "idl-def-a-b-c"].
Proof. reflexivity. Qed.

(** Nor is a name that ends like an argument segment of its sibling. *)
Example argument_and_hyphen_share_anchor :
  idlId <$> (resolveAll newIDLNameMap argumentAndHyphen).1
  = ["idl-def-foo-bar-x"; "idl-def-foo-bar-x"].
Proof. reflexivity. Qed.

(** Operations whose names differ in letter case only have counters of
    their own and one id. *)
Example operations_differing_in_case_share_anchor :
  idlId <$> (resolveAll newIDLNameMap fooAndFooOperations).1
  = ["idl-def-p-foo"; "idl-def-p-foo"].
Proof. reflexivity. Qed.






(** Within one scope, names that differ in more than letter case have
    different bare ids; no condition on the characters of the names. *)
Lemma same_parent_bareId_ne ci cj :
  c_parent ci = c_parent cj ->
  toLowerCase (getDefnName (c_defn ci)) <> toLowerCase (getDefnName (c_defn cj)) ->
  bareId ci <> bareId cj.
Proof.
  intros Hp Hn. unfold bareId, getIdlId. rewrite <- Hp.
  destruct (String.eqb (c_parent ci) ""); intros Heq;
    repeat apply (inj (String.append _)) in Heq; done.
Qed.



End ResolverUnique.
